(** * SpaceShooter: the simulation core of [src/Workshop/SpaceShooter.tsx]

    A shallow embedding of the game state, the entity factories, the
    collision test, [resetGame] and the state updater of [updateGame],
    followed by the properties of the simulation step.  The input handlers
    and the drawing helpers are embedded as well; the calls to
    [e.preventDefault()] act on the host's event and are left out, except
    for the conditional one of [handleKeyDown].

    Modelling conventions.
    - A JavaScript [number] that carries a coordinate, a size or a speed is an
      exact rational ([Q]); rounding, NaN and infinities of IEEE doubles are
      outside the model.  Values that the source only ever builds as integers
      are integers ([Z]): [Date.now()] and the two timestamps, [Enemy.type]
      (always [Math.floor (..)]), [Explosion.frame] (0, then [++]) and the
      score (0, then [+ (type + 1) * 10]).
    - [Math.sqrt] is an operation of the host; it is a parameter of the
      development (class [MathLib]).
    - [Date.now()], [keysRef.current], [touchRef.current] and the results of
      the successive [Math.random()] calls of one tick are the inputs of that
      tick ([TickInput]).
    - The component instance is the record [World]: its props, the
      [gameState] cell and the [score] cell.  The updater mutates the objects
      of the previous state in place and returns a shallow copy; every object
      lives in exactly one array, so one invocation is modelled as a function
      from the previous world to the next one. *)

From Stdlib Require Import ZArith QArith Qminmax Qround Qabs List String Bool
  Lia Lqa.
Import ListNotations.
Open Scope Q_scope.

(** ** Numbers *)

Definition Qlt_bool (a b : Q) : bool := negb (Qle_bool b a).
Definition Qgt_bool (a b : Q) : bool := Qlt_bool b a.

Class MathLib := { Math_sqrt : Q -> Q }.

(** ** Data model (interfaces, lines 12-53; state cells, lines 88-105) *)

Record GameObject := mkGameObject {
  x : Q;
  y : Q;
  width : Q;
  height : Q;
  speed : Q;
  active : bool
}.

Record Enemy := mkEnemy {
  body :> GameObject;
  type : Z
}.

Definition Bullet := GameObject.
Definition EnemyBullet := GameObject.
Definition Player := GameObject.

Module Explosion.
Record t := mk {
  x : Q;
  y : Q;
  frame : Z;
  active : bool
}.
End Explosion.

Record SpaceShooterProps := mkProps {
  backgroundColor : string;
  playerColor : string;
  bulletColor : string;
  enemyColor : string;
  enemyBulletColor : string;
  explosionColor : string;
  scoreColor : string;
  starColor : string;
  starSize : Q;
  gameSpeed : Q;
  playerSize : Q;
  enemySize : Q
}.

Record GameState := mkGameState {
  player : Player;
  bullets : list Bullet;
  enemyBullets : list EnemyBullet;
  enemies : list Enemy;
  explosions : list Explosion.t;
  lastEnemySpawn : Z;
  lastBulletFire : Z;
  gameOver : bool
}.

Record World := mkWorld {
  props : SpaceShooterProps;
  gameState : GameState;
  score : Z
}.

Record TickInput := mkTickInput {
  now : Z;
  keys : list string;
  touch : option (Q * Q);
  random : nat -> Q
}.

Definition has (ks : list string) (k : string) : bool :=
  existsb (String.eqb k) ks.

Definition CANVAS_WIDTH : Q := 800.
Definition CANVAS_HEIGHT : Q := 600.

(** ** Field updates of a [GameObject] *)

Definition setX (o : GameObject) (v : Q) : GameObject :=
  mkGameObject v (y o) (width o) (height o) (speed o) (active o).
Definition setY (o : GameObject) (v : Q) : GameObject :=
  mkGameObject (x o) v (width o) (height o) (speed o) (active o).
Definition setActive (o : GameObject) (a : bool) : GameObject :=
  mkGameObject (x o) (y o) (width o) (height o) (speed o) a.
Definition setSize (o : GameObject) (w h : Q) : GameObject :=
  mkGameObject (x o) (y o) w h (speed o) (active o).
Definition onBody (f : GameObject -> GameObject) (e : Enemy) : Enemy :=
  mkEnemy (f e) (type e).

(** ** Collision test and factories (lines 228-275) *)

Definition checkCollision (obj1 obj2 : GameObject) : bool :=
  Qlt_bool (x obj1) (x obj2 + width obj2) &&
  Qgt_bool (x obj1 + width obj1) (x obj2) &&
  Qlt_bool (y obj1) (y obj2 + height obj2) &&
  Qgt_bool (y obj1 + height obj1) (y obj2).

(** [r0], [r1], [r2] are the three [Math.random()] results, in call order. *)
Definition spawnEnemy (enemySize : Q) (r0 r1 r2 : Q) : Enemy :=
  mkEnemy
    (mkGameObject (r0 * (CANVAS_WIDTH - enemySize)) (- enemySize)
                  enemySize enemySize (2 + r1 * 3) true)
    (Qfloor (r2 * 2)).

Definition fireBullet (p : Player) : Bullet :=
  mkGameObject (x p + width p / 2 - 2) (y p) 4 12 8 true.

Definition fireEnemyBullet (e : Enemy) : EnemyBullet :=
  mkGameObject (x e + width e / 2 - 2) (y e + height e) 4 8 4 true.

(** The initial value of the [gameState] cell (lines 89-105); [resetGame]
    (lines 277-296) stores the same value and sets the score to 0. *)
Definition initialGameState (playerSize : Q) : GameState :=
  mkGameState (mkGameObject 400 500 playerSize playerSize 5 true)
              [] [] [] [] 0%Z 0%Z false.

Definition initialWorld (p : SpaceShooterProps) : World :=
  mkWorld p (initialGameState (playerSize p)) 0%Z.

Definition resetGame (w : World) : World :=
  mkWorld (props w) (initialGameState (playerSize (props w))) 0%Z.

(** The effect on [playerSize] (lines 468-478): the host re-renders with new
    props and the current player is resized, the rest of the state is kept. *)
Definition resizePlayer (p : SpaceShooterProps) (w : World) : World :=
  let g := gameState w in
  mkWorld p
    (mkGameState (setSize (player g) (playerSize p) (playerSize p))
       (bullets g) (enemyBullets g) (enemies g) (explosions g)
       (lastEnemySpawn g) (lastBulletFire g) (gameOver g))
    (score w).

(** ** Field updates of a [GameState] *)

Definition setPlayer (g : GameState) (p : Player) : GameState :=
  mkGameState p (bullets g) (enemyBullets g) (enemies g) (explosions g)
              (lastEnemySpawn g) (lastBulletFire g) (gameOver g).
Definition setBullets (g : GameState) (bs : list Bullet) : GameState :=
  mkGameState (player g) bs (enemyBullets g) (enemies g) (explosions g)
              (lastEnemySpawn g) (lastBulletFire g) (gameOver g).
Definition setEnemyBullets (g : GameState) (bs : list EnemyBullet) : GameState :=
  mkGameState (player g) (bullets g) bs (enemies g) (explosions g)
              (lastEnemySpawn g) (lastBulletFire g) (gameOver g).
Definition setEnemies (g : GameState) (es : list Enemy) : GameState :=
  mkGameState (player g) (bullets g) (enemyBullets g) es (explosions g)
              (lastEnemySpawn g) (lastBulletFire g) (gameOver g).
Definition setExplosions (g : GameState) (ex : list Explosion.t) : GameState :=
  mkGameState (player g) (bullets g) (enemyBullets g) (enemies g) ex
              (lastEnemySpawn g) (lastBulletFire g) (gameOver g).
Definition setLastEnemySpawn (g : GameState) (t : Z) : GameState :=
  mkGameState (player g) (bullets g) (enemyBullets g) (enemies g) (explosions g)
              t (lastBulletFire g) (gameOver g).
Definition setLastBulletFire (g : GameState) (t : Z) : GameState :=
  mkGameState (player g) (bullets g) (enemyBullets g) (enemies g) (explosions g)
              (lastEnemySpawn g) t (gameOver g).
Definition setGameOver (g : GameState) (b : bool) : GameState :=
  mkGameState (player g) (bullets g) (enemyBullets g) (enemies g) (explosions g)
              (lastEnemySpawn g) (lastBulletFire g) b.

(** ** The simulation step, phase by phase ([updateGame], lines 298-466) *)

Section Step.
Context {M : MathLib}.

(** Keyboard channel (lines 306-323): four independent guarded moves. *)
Definition keyboardMove (gs : Q) (ks : list string) (p : Player) : Player :=
  let p := if has ks "ArrowLeft" && Qgt_bool (x p) 0
           then setX p (x p - speed p * gs) else p in
  let p := if has ks "ArrowRight" && Qlt_bool (x p) (CANVAS_WIDTH - width p)
           then setX p (x p + speed p * gs) else p in
  let p := if has ks "ArrowUp" && Qgt_bool (y p) 0
           then setY p (y p - speed p * gs) else p in
  let p := if has ks "ArrowDown" && Qlt_bool (y p) (CANVAS_HEIGHT - height p)
           then setY p (y p + speed p * gs) else p in
  p.

Definition clampX (p : Player) : Q :=
  Qmax 0 (Qmin (CANVAS_WIDTH - width p) (x p)).
Definition clampY (p : Player) : Q :=
  Qmax 0 (Qmin (CANVAS_HEIGHT - height p) (y p)).

(** Touch channel (lines 326-356): the block guarded by [touchRef.current];
    the clamp (comment: Keep player in bounds) is the tail of that block. *)
Definition touchMove (gs : Q) (t : option (Q * Q)) (p : Player) : Player :=
  match t with
  | None => p
  | Some (tx, ty) =>
      let targetX := tx - width p / 2 in
      let targetY := ty - height p / 2 in
      let dx := targetX - x p in
      let dy := targetY - y p in
      let distance := Math_sqrt (dx * dx + dy * dy) in
      let p :=
        if Qgt_bool distance 5 then
          let p := setX p (x p + (dx / distance) * speed p * gs) in
          setY p (y p + (dy / distance) * speed p * gs)
        else p in
      let p := setX p (clampX p) in
      setY p (clampY p)
  end.

Definition movePlayer (gs : Q) (i : TickInput) (g : GameState) : GameState :=
  setPlayer g (touchMove gs (touch i) (keyboardMove gs (keys i) (player g))).

(** Auto-fire (lines 359-362). *)
Definition autoFire (i : TickInput) (g : GameState) : GameState :=
  if (now i - lastBulletFire g >? 200)%Z then
    setLastBulletFire (setBullets g (bullets g ++ [fireBullet (player g)])) (now i)
  else g.

(** Player bullets (lines 365-368): move up, keep the visible and active
    ones. *)
Definition moveBullet (gs : Q) (b : Bullet) : Bullet :=
  setY b (y b - speed b * gs).
Definition keepBullet (b : Bullet) : bool :=
  Qgt_bool (y b) (- height b) && active b.
Definition updateBullets (gs : Q) (g : GameState) : GameState :=
  setBullets g (filter keepBullet (map (moveBullet gs) (bullets g))).

(** Enemy bullets (lines 371-374): move down, keep the visible and active
    ones. *)
Definition moveDown (gs : Q) (o : GameObject) : GameObject :=
  setY o (y o + speed o * gs).
Definition keepBelow (o : GameObject) : bool :=
  Qlt_bool (y o) (CANVAS_HEIGHT + height o) && active o.
Definition updateEnemyBullets (gs : Q) (g : GameState) : GameState :=
  setEnemyBullets g (filter keepBelow (map (moveDown gs) (enemyBullets g))).

(** Enemy spawn (lines 377-380); the second component is the number of
    [Math.random()] calls made. *)
Definition spawnPhase (enemySize : Q) (i : TickInput) (g : GameState)
  : GameState * nat :=
  if (now i - lastEnemySpawn g >? 1000)%Z then
    (setLastEnemySpawn
       (setEnemies g (enemies g ++
          [spawnEnemy enemySize (random i 0) (random i 1) (random i 2)]))
       (now i), 3%nat)
  else (g, 0%nat).

(** The filter callback over the enemies (lines 383-392): move, maybe shoot
    (the bullet is pushed on the already updated enemy-bullet list), keep or
    drop.  [k] is the index of the next [Math.random()] call. *)
Fixpoint enemiesLoop (gs : Q) (rnd : nat -> Q) (k : nat)
         (es : list Enemy) (ebs : list EnemyBullet)
  : list Enemy * list EnemyBullet :=
  match es with
  | [] => ([], ebs)
  | e :: rest =>
      let e' := onBody (moveDown gs) e in
      let ebs' := if Qlt_bool (rnd k) (0.005 * gs)
                  then ebs ++ [fireEnemyBullet e'] else ebs in
      let '(rest', ebs'') := enemiesLoop gs rnd (S k) rest ebs' in
      (if keepBelow e' then e' :: rest' else rest', ebs'')
  end.

Definition updateEnemies (gs : Q) (rnd : nat -> Q) (k : nat) (g : GameState)
  : GameState :=
  let '(es, ebs) := enemiesLoop gs rnd k (enemies g) (enemyBullets g) in
  setEnemies (setEnemyBullets g ebs) es.

(** Everything before the collision passes. *)
Definition beforeCollisions (p : SpaceShooterProps) (i : TickInput)
           (g : GameState) : GameState :=
  let gs := gameSpeed p in
  let g := movePlayer gs i g in
  let g := autoFire i g in
  let g := updateBullets gs g in
  let g := updateEnemyBullets gs g in
  let '(g, k) := spawnPhase (enemySize p) i g in
  updateEnemies gs (random i) k g.

(** Bullet-enemy collisions (lines 395-419): the inner [forEach] for one
    bullet. *)
Definition enemyExplosion (e : Enemy) : Explosion.t :=
  Explosion.mk (x e + width e / 2) (y e + height e / 2) 0 true.
Definition points (e : Enemy) : Z := ((type e + 1) * 10)%Z.

Fixpoint bulletVsEnemies (b : Bullet) (es : list Enemy)
         (ex : list Explosion.t) (sc : Z)
  : Bullet * list Enemy * list Explosion.t * Z :=
  match es with
  | [] => (b, [], ex, sc)
  | e :: rest =>
      if active b && active e && checkCollision b e then
        let '(b', rest', ex', sc') :=
          bulletVsEnemies (setActive b false) rest
                          (ex ++ [enemyExplosion e]) (sc + points e)%Z in
        (b', onBody (fun o => setActive o false) e :: rest', ex', sc')
      else
        let '(b', rest', ex', sc') := bulletVsEnemies b rest ex sc in
        (b', e :: rest', ex', sc')
  end.

(** The outer [forEach] over the bullets. *)
Fixpoint bulletsVsEnemies (bs : list Bullet) (es : list Enemy)
         (ex : list Explosion.t) (sc : Z)
  : list Bullet * list Enemy * list Explosion.t * Z :=
  match bs with
  | [] => ([], es, ex, sc)
  | b :: rest =>
      let '(b', es', ex', sc') := bulletVsEnemies b es ex sc in
      let '(rest', es'', ex'', sc'') := bulletsVsEnemies rest es' ex' sc' in
      (b' :: rest', es'', ex'', sc'')
  end.

Definition bulletEnemyCollisions (gsc : GameState * Z) : GameState * Z :=
  let '(g, sc) := gsc in
  let '(bs, es, ex, sc') :=
    bulletsVsEnemies (bullets g) (enemies g) (explosions g) sc in
  (setExplosions (setEnemies (setBullets g bs) es) ex, sc').

(** Enemy-player and enemy-bullet-player collisions (lines 422-447): one
    [forEach] each, over the bodies of the objects. *)
Definition playerExplosion (p : Player) : Explosion.t :=
  Explosion.mk (x p + width p / 2) (y p + height p / 2) 0 true.

Definition hitPlayer (g : GameState) (o : GameObject) : GameState :=
  if active o && checkCollision o (player g) then
    setExplosions (setGameOver g true)
                  (explosions g ++ [playerExplosion (player g)])
  else g.

Definition enemyPlayerCollisions (g : GameState) : GameState :=
  fold_left hitPlayer (map body (enemies g)) g.
Definition enemyBulletPlayerCollisions (g : GameState) : GameState :=
  fold_left hitPlayer (enemyBullets g) g.

(** Filter out inactive objects (lines 450-456). *)
Definition pruneInactive (g : GameState) : GameState :=
  let g := setBullets g (filter active (bullets g)) in
  let g := setEnemyBullets g (filter active (enemyBullets g)) in
  setEnemies g (filter (fun e : Enemy => active e) (enemies g)).

(** Update explosions (lines 459-462). *)
Definition ageExplosion (e : Explosion.t) : Explosion.t :=
  Explosion.mk (Explosion.x e) (Explosion.y e) (Explosion.frame e + 1)
               (Explosion.active e).
Definition updateExplosions (g : GameState) : GameState :=
  setExplosions g
    (filter (fun e => (Explosion.frame e <? 10)%Z)
            (map ageExplosion (explosions g))).

(** The state after the bullet-enemy pass, and the whole updater. *)
Definition afterBulletEnemy (i : TickInput) (w : World) : GameState * Z :=
  bulletEnemyCollisions (beforeCollisions (props w) i (gameState w), score w).

Definition afterPlayerCollisions (i : TickInput) (w : World) : GameState :=
  enemyBulletPlayerCollisions
    (enemyPlayerCollisions (fst (afterBulletEnemy i w))).

Definition updateGame (i : TickInput) (w : World) : World :=
  if gameOver (gameState w) then w
  else
    mkWorld (props w)
            (updateExplosions (pruneInactive (afterPlayerCollisions i w)))
            (snd (afterBulletEnemy i w)).

Definition run (ins : list TickInput) (w : World) : World :=
  fold_left (fun w i => updateGame i w) ins w.

(** [Math.random()] returns a value in [0, 1). *)
Definition valid_input (i : TickInput) : Prop :=
  forall n, 0 <= random i n /\ random i n < 1.

(** Worlds the component can be in: mount, ticks, restarts, and a change
    of props by the host. *)
Inductive reachable : World -> Prop :=
| reach_init p : reachable (initialWorld p)
| reach_tick i w : reachable w -> valid_input i -> reachable (updateGame i w)
| reach_reset w : reachable w -> reachable (resetGame w)
| reach_props p w : reachable w -> reachable (resizePlayer p w).

End Step.

(** ** Input handlers (lines 561-698) *)

(** [keysRef.current] is a [Set<string>]: a list without repetition, in
    insertion order. *)
Definition setAdd (k : string) (ks : list string) : list string :=
  if has ks k then ks else ks ++ [k].
Definition setDelete (k : string) (ks : list string) : list string :=
  filter (fun k' => negb (String.eqb k' k)) ks.

Definition arrowKeys : list string :=
  ["ArrowLeft"; "ArrowRight"; "ArrowUp"; "ArrowDown"]%string.

(** The result of [getBoundingClientRect()] and one entry of [e.touches]. *)
Module DOMRect.
Record t := mk {
  left : Q;
  top : Q;
  width : Q;
  height : Q
}.
End DOMRect.

Record Touch := mkTouch {
  clientX : Q;
  clientY : Q
}.

(** The mutable cells of one component instance: the state cells ([World])
    and the two refs read by the updater. *)
Record Component := mkComponent {
  world : World;
  keysRef : list string;
  touchRef : option (Q * Q)
}.

Definition mount (p : SpaceShooterProps) : Component :=
  mkComponent (initialWorld p) [] None.

Definition restartIfOver (w : World) : World :=
  if gameOver (gameState w) then resetGame w else w.

(** [handleKeyDown] (lines 562-580); [keyDownPrevented] tells whether it
    calls [e.preventDefault()]. *)
Definition handleKeyDown (key : string) (c : Component) : Component :=
  mkComponent (restartIfOver (world c))
              (if has arrowKeys key then setAdd key (keysRef c) else keysRef c)
              (touchRef c).
Definition keyDownPrevented (key : string) (c : Component) : bool :=
  has arrowKeys key || gameOver (gameState (world c)).

(** [handleKeyUp] (lines 582-584). *)
Definition handleKeyUp (key : string) (c : Component) : Component :=
  mkComponent (world c) (setDelete key (keysRef c)) (touchRef c).

(** The direction chosen from a touch position (lines 592-621 and 642-671):
    the dominant axis decides, the vertical one on a tie. *)
Definition touchDirection (rect : DOMRect.t) (t : Touch) : option string :=
  let touchX := clientX t - DOMRect.left rect in
  let touchY := clientY t - DOMRect.top rect in
  let centerX := DOMRect.width rect / 2 in
  let centerY := DOMRect.height rect / 2 in
  let isLeft := Qlt_bool touchX centerX in
  let isRight := Qgt_bool touchX centerX in
  let isUp := Qlt_bool touchY centerY in
  let isDown := Qgt_bool touchY centerY in
  let horizontalDistance := Qabs (touchX - centerX) in
  let verticalDistance := Qabs (touchY - centerY) in
  if Qgt_bool horizontalDistance verticalDistance then
    if isLeft then Some "ArrowLeft"%string
    else if isRight then Some "ArrowRight"%string
    else None
  else
    if isUp then Some "ArrowUp"%string
    else if isDown then Some "ArrowDown"%string
    else None.

(** The block guarded by [rect && e.touches[0]]: [rect] is absent when the
    canvas is not mounted, the touch when [e.touches] is empty. *)
Definition steer (rect : option DOMRect.t) (touches : list Touch)
           (ks : list string) : list string :=
  match rect, touches with
  | Some r, t :: _ =>
      match touchDirection r t with
      | Some d => setAdd d ks
      | None => ks
      end
  | _, _ => ks
  end.

Definition clearArrows (ks : list string) : list string :=
  setDelete "ArrowDown"
    (setDelete "ArrowUp" (setDelete "ArrowRight" (setDelete "ArrowLeft" ks))).

(** [handleTouchStart] (lines 587-630), [handleTouchMove] (lines 632-673),
    [handleTouchEnd] (lines 675-682). *)
Definition handleTouchStart (rect : option DOMRect.t) (touches : list Touch)
           (c : Component) : Component :=
  mkComponent (restartIfOver (world c)) (steer rect touches (keysRef c))
              (touchRef c).
Definition handleTouchMove (rect : option DOMRect.t) (touches : list Touch)
           (c : Component) : Component :=
  mkComponent (world c) (steer rect touches (clearArrows (keysRef c)))
              (touchRef c).
Definition handleTouchEnd (c : Component) : Component :=
  mkComponent (world c) (clearArrows (keysRef c)) (touchRef c).

(** [handleArrowPress], [handleArrowRelease] (lines 685-691); no element of
    the rendered tree is given these two. *)
Definition handleArrowPress (direction : string) (c : Component) : Component :=
  mkComponent (world c) (setAdd direction (keysRef c)) (touchRef c).
Definition handleArrowRelease (direction : string) (c : Component)
  : Component :=
  mkComponent (world c) (setDelete direction (keysRef c)) (touchRef c).

(** [handleCanvasClick] (lines 694-698). *)
Definition handleCanvasClick (c : Component) : Component :=
  mkComponent (restartIfOver (world c)) (keysRef c) (touchRef c).

(** What the host can deliver to a mounted component: the window and canvas
    events that have a listener (lines 705-706 and 771-774), an animation
    frame (lines 555-559) and new props (lines 468-478). *)
Inductive Event :=
| KeyDown (key : string)
| KeyUp (key : string)
| TouchStart (rect : option DOMRect.t) (touches : list Touch)
| TouchMove (rect : option DOMRect.t) (touches : list Touch)
| TouchEnd
| Click
| AnimationFrame (now : Z) (random : nat -> Q)
| NewProps (p : SpaceShooterProps).

Section Dispatch.
Context {M : MathLib}.

(** One animation frame: the updater reads the two refs as they are. *)
Definition frame (t : Z) (rnd : nat -> Q) (c : Component) : Component :=
  mkComponent
    (updateGame (mkTickInput t (keysRef c) (touchRef c) rnd) (world c))
    (keysRef c) (touchRef c).

Definition dispatch (c : Component) (e : Event) : Component :=
  match e with
  | KeyDown k => handleKeyDown k c
  | KeyUp k => handleKeyUp k c
  | TouchStart r ts => handleTouchStart r ts c
  | TouchMove r ts => handleTouchMove r ts c
  | TouchEnd => handleTouchEnd c
  | Click => handleCanvasClick c
  | AnimationFrame t rnd => frame t rnd c
  | NewProps p => mkComponent (resizePlayer p (world c)) (keysRef c) (touchRef c)
  end.

Definition play (es : list Event) (c : Component) : Component :=
  fold_left dispatch es c.

End Dispatch.

(** ** Drawing helpers (lines 107-226) *)

Definition PIXEL_SIZE : Q := 4.

(** [Math.floor(v / PIXEL_SIZE) * PIXEL_SIZE]. *)
Definition snap (v : Q) : Q := inject_Z (Qfloor (v / PIXEL_SIZE)) * PIXEL_SIZE.

(** The calls made on the 2-D context. *)
Inductive CanvasOp :=
| FillStyle (color : string)
| FillRect (x y w h : Q).

Definition drawPixelRect (x y width height : Q) (color : string)
  : list CanvasOp :=
  [FillStyle color; FillRect (snap x) (snap y) (snap width) (snap height)].

Definition drawPlayer (playerColor : string) (player : Player)
  : list CanvasOp :=
  let x := snap (x player) in
  let y := snap (y player) in
  let scale := width player / 32 in
  [FillStyle playerColor;
   FillRect (x + 12 * scale) y (8 * scale) (24 * scale);
   FillRect x (y + 16 * scale) (32 * scale) (8 * scale);
   FillRect (x + 8 * scale) (y + 4 * scale) (16 * scale) (8 * scale);
   FillRect (x + 4 * scale) (y + 24 * scale) (8 * scale) (8 * scale);
   FillRect (x + 20 * scale) (y + 24 * scale) (8 * scale) (8 * scale)].

Definition drawBullet (bulletColor : string) (bullet : Bullet)
  : list CanvasOp :=
  drawPixelRect (x bullet) (y bullet) (width bullet) (height bullet)
                bulletColor.

Definition drawEnemyBullet (enemyBulletColor : string) (bullet : EnemyBullet)
  : list CanvasOp :=
  drawPixelRect (x bullet) (y bullet) (width bullet) (height bullet)
                enemyBulletColor.

Definition drawEnemy (enemyColor : string) (enemy : Enemy) : list CanvasOp :=
  let x := snap (x enemy) in
  let y := snap (y enemy) in
  let scale := width enemy / 24 in
  [FillStyle enemyColor;
   FillRect (x + 10 * scale) y (4 * scale) (12 * scale);
   FillRect (x + 4 * scale) (y + 8 * scale) (16 * scale) (4 * scale);
   FillRect (x + 8 * scale) (y + 2 * scale) (8 * scale) (4 * scale);
   FillRect (x + 6 * scale) (y + 12 * scale) (4 * scale) (4 * scale);
   FillRect (x + 14 * scale) (y + 12 * scale) (4 * scale) (4 * scale)].


(** ** Vocabulary of the statements *)

Definition deactivate (e : Enemy) : Enemy :=
  onBody (fun o => setActive o false) e.

(** The enemies that were active before a pass and are inactive after it,
    position by position. *)
Fixpoint destroyed (before after : list Enemy) : list Enemy :=
  match before, after with
  | e :: before', e' :: after' =>
      if active e && negb (active e')
      then e :: destroyed before' after'
      else destroyed before' after'
  | _, _ => []
  end.

Definition sumPoints (es : list Enemy) : Z :=
  fold_right (fun e acc => (points e + acc)%Z) 0%Z es.

(** Position by position, an enemy is left as it is or, if it was active,
    deactivated. *)
Definition decays (es es' : list Enemy) : Prop :=
  Forall2 (fun e e' : Enemy =>
             e' = e \/ (active e = true /\ e' = deactivate e))
          es es'.

(** A bullet that hits none of the enemies of a list, and a bullet whose
    first hit in the list [l ++ e :: r] is [e]. *)
Definition missesAll (b : Bullet) (es : list Enemy) : Prop :=
  forall e, In e es -> active b && active e && checkCollision b e = false.

Definition hitsFirst (b : Bullet) (es : list Enemy) (l : list Enemy)
           (e : Enemy) (r : list Enemy) : Prop :=
  es = l ++ e :: r /\ active b = true /\ active e = true /\
  checkCollision b e = true /\
  forall e0, In e0 l -> active e0 && checkCollision b e0 = false.

(** The objects of a list that count as colliding with the player. *)
Definition colliders (p : Player) (os : list GameObject) : list GameObject :=
  filter (fun o => active o && checkCollision o p) os.

(** What holds of every world the component can be in. *)
Definition playerAlive (w : World) : Prop :=
  active (player (gameState w)) = true.
Definition enemyTypesOk (w : World) : Prop :=
  Forall (fun e : Enemy => type e = 0%Z \/ type e = 1%Z) (enemies (gameState w)).
Definition framesOk (w : World) : Prop :=
  Forall (fun e => (1 <= Explosion.frame e <= 9)%Z) (explosions (gameState w)).

(** The player is at most one keyboard step outside the playfield. *)
Definition nearPlayfield (gs : Q) (p : Player) : Prop :=
  let s := speed p * gs in
  - s <= x p /\ x p <= CANVAS_WIDTH - width p + s /\
  - s <= y p /\ y p <= CANVAS_HEIGHT - height p + s.

(** The player is inside the playfield. *)
Definition inPlayfield (p : Player) : Prop :=
  0 <= x p /\ x p <= CANVAS_WIDTH - width p /\
  0 <= y p /\ y p <= CANVAS_HEIGHT - height p.

(** Events whose [Math.random()] results are in [0, 1). *)
Definition validEvent (e : Event) : Prop :=
  match e with
  | AnimationFrame _ rnd => forall n, 0 <= rnd n /\ rnd n < 1
  | _ => True
  end.


(** The shape of the entities the factories build. *)
Definition bulletShape (b : Bullet) : Prop :=
  width b = 4 /\ height b = 12 /\ speed b = 8.
Definition enemyBulletShape (b : EnemyBullet) : Prop :=
  width b = 4 /\ height b = 8 /\ speed b = 4.

(** A bullet after the bullet-enemy pass: as before, or deactivated. *)
Definition spent (b b' : Bullet) : Prop := b' = b \/ b' = setActive b false.

(** The spawn gate, and the enemy list and enemy-bullet list handed to the
    enemy update of a tick. *)
Definition spawns (i : TickInput) (g : GameState) : bool :=
  (now i - lastEnemySpawn g >? 1000)%Z.
Definition enemiesIn (p : SpaceShooterProps) (i : TickInput) (g : GameState)
  : list Enemy :=
  if spawns i g
  then enemies g ++
       [spawnEnemy (enemySize p) (random i 0) (random i 1) (random i 2)]
  else enemies g.
Definition enemyBulletsIn (p : SpaceShooterProps) (g : GameState)
  : list EnemyBullet :=
  filter keepBelow (map (moveDown (gameSpeed p)) (enemyBullets g)).

(** What holds of the entities, the player and the score of every world the
    component can be in. *)
Definition bulletOk (b : Bullet) : Prop :=
  active b = true /\ bulletShape b /\ - height b < y b.
Definition enemyBulletOk (b : EnemyBullet) : Prop :=
  active b = true /\ enemyBulletShape b.
Definition enemyOk (e : Enemy) : Prop :=
  active e = true /\ 2 <= speed e /\ speed e <= 5 /\ width e = height e /\
  y e < CANVAS_HEIGHT + height e.
Definition entitiesOk (w : World) : Prop :=
  Forall bulletOk (bullets (gameState w)) /\
  Forall enemyBulletOk (enemyBullets (gameState w)) /\
  Forall enemyOk (enemies (gameState w)).
Definition playerOk (w : World) : Prop :=
  speed (player (gameState w)) = 5 /\
  width (player (gameState w)) = playerSize (props w) /\
  height (player (gameState w)) = playerSize (props w).
Definition scoreOk (w : World) : Prop :=
  (0 <= score w)%Z /\ (10 | score w)%Z.

(** ** Concrete data for evaluation *)

(** A square root on [Q] that is exact whenever the root is rational with
    the same denominator (rounded down to a multiple of [1 / d] otherwise). *)
Definition sqrtQ (q : Q) : Q :=
  Qmake (Z.sqrt (Qnum q * Zpos (Qden q))) (Qden q).

Definition evalMath : MathLib := {| Math_sqrt := sqrtQ |}.

(** The default props of the component (destructuring defaults). *)
Definition defaultProps : SpaceShooterProps :=
  mkProps "#000011" "#00FF00" "#FFFF00" "#FF0000" "#FF6600" "#FFA500"
          "#FFFFFF" "#FFFFFF" 2 1 32 32.

(** A tick at time [t] with the given keys held, no touch target, and every
    [Math.random()] call returning [r]. *)
Definition tickAt (t : Z) (ks : list string) (r : Q) : TickInput :=
  mkTickInput t ks None (fun _ => r).

(** [n] consecutive frames, 16 ms apart. *)
Definition t0 : Z := 1700000000000.
Definition ticks (ks : list string) (r : Q) (n : nat) : list TickInput :=
  map (fun k => tickAt (t0 + 16 * Z.of_nat k) ks r) (seq 0 n).

Definition mounted : World := initialWorld defaultProps.

(** ArrowRight held for 73 frames after mount, and the 74th frame. *)
Definition rightEdgeWorld : World :=
  @run evalMath (ticks ["ArrowRight"%string] 0.9 73) mounted.
Definition rightEdgeTick : TickInput :=
  tickAt (t0 + 16 * 73) ["ArrowRight"%string] 0.9.

(** No input for 144 frames; the enemies come down left of the bullet lane
    and the first one reaches the player on the 145th frame. *)
Definition crashEve : World := @run evalMath (ticks [] 0.49 144) mounted.
Definition crashTick : TickInput := tickAt (t0 + 16 * 144) [] 0.49.
Definition crashed : World := @updateGame evalMath crashTick crashEve.

(** No input for 43 frames; the first enemy comes down the bullet lane and
    is hit on the 44th frame. *)
Definition hitEve : World := @run evalMath (ticks [] 0.52 43) mounted.
Definition hitTick : TickInput := tickAt (t0 + 16 * 43) [] 0.52.

(** One bullet about to overlap two enemies at once. *)
Definition overlapWorld : World :=
  mkWorld defaultProps
    (mkGameState (mkGameObject 400 500 32 32 5 true)
       [mkGameObject 100 20 4 12 8 true]
       []
       [mkEnemy (mkGameObject 90 0 32 32 2 true) 1;
        mkEnemy (mkGameObject 95 0 32 32 2 true) 0]
       [] 1000%Z 1000%Z false)
    0%Z.
Definition overlapTick : TickInput := tickAt 1100 [] 0.9.

(** A frame after mount with a touch target 30 right of and 40 below the
    point that would centre the player on it (distance 50). *)
Definition touchTick : TickInput :=
  mkTickInput t0 [] (Some (446, 556)) (fun _ => 0.9).

(** The first frame after mount, and a frame exactly 200 ms later. *)
Definition firstFrame : World :=
  @updateGame evalMath (tickAt t0 [] 0.9) mounted.
Definition tick200 : TickInput := tickAt (t0 + 200) [] 0.9.

(** The player as mounted with the default props, the two opposing keys,
    a canvas rectangle with a touch left of its centre, a short session of
    events, and the component after the crash. *)
Definition startPlayer : Player := mkGameObject 400 500 32 32 5 true.
Definition bothKeys : list string := ["ArrowLeft"; "ArrowRight"]%string.
Definition sampleRect : DOMRect.t := DOMRect.mk 0 0 800 600.
Definition leftTouch : Touch := mkTouch 100 310.
Definition sampleEvents : list Event :=
  [KeyDown "ArrowRight"; AnimationFrame t0 (fun _ => 0.9);
   TouchMove (Some sampleRect) [leftTouch];
   AnimationFrame (t0 + 16) (fun _ => 0.9); TouchEnd; KeyUp "ArrowRight"].
Definition overComponent : Component := mkComponent crashed [] None.

(** ** Properties *)

Lemma Qlt_bool_iff a b : Qlt_bool a b = true <-> a < b.
Proof.
  unfold Qlt_bool. rewrite negb_true_iff. split; intro H.
  - apply Qnot_le_lt. intro L. apply Qle_bool_iff in L. congruence.
  - destruct (Qle_bool b a) eqn:E; [|reflexivity].
    apply Qle_bool_iff in E. exfalso. exact (Qlt_not_le _ _ H E).
Qed.

Lemma Qgt_bool_iff a b : Qgt_bool a b = true <-> b < a.
Proof. apply Qlt_bool_iff. Qed.

Section Properties.
Context {M : MathLib}.

(** *** Which fields each phase touches *)

Ltac open_phases :=
  unfold beforeCollisions, updateEnemies, spawnPhase, updateEnemyBullets,
    updateBullets, autoFire;
  repeat match goal with
  | |- context [enemiesLoop ?a ?b ?c ?d ?e] =>
      destruct (enemiesLoop a b c d e)
  | |- context [(?a >? ?b)%Z] => destruct (a >? b)%Z
  end;
  reflexivity.

Lemma beforeCollisions_player p i g :
  player (beforeCollisions p i g) = player (movePlayer (gameSpeed p) i g).
Proof. open_phases. Qed.

Lemma beforeCollisions_gameOver p i g :
  gameOver (beforeCollisions p i g) = gameOver g.
Proof. open_phases. Qed.

Lemma beforeCollisions_explosions p i g :
  explosions (beforeCollisions p i g) = explosions g.
Proof. open_phases. Qed.

Lemma beforeCollisions_lastBulletFire p i g :
  lastBulletFire (beforeCollisions p i g) =
  lastBulletFire (autoFire i (movePlayer (gameSpeed p) i g)).
Proof. open_phases. Qed.

Lemma beforeCollisions_bullets p i g :
  bullets (beforeCollisions p i g) =
  filter keepBullet
    (map (moveBullet (gameSpeed p))
         (bullets (autoFire i (movePlayer (gameSpeed p) i g)))).
Proof. open_phases. Qed.

(** The bullet-enemy pass rewrites bullets, enemies, explosions and the
    score, nothing else. *)
Lemma bulletEnemyCollisions_frame g sc :
  let g' := fst (bulletEnemyCollisions (g, sc)) in
  player g' = player g /\ enemyBullets g' = enemyBullets g /\
  lastEnemySpawn g' = lastEnemySpawn g /\
  lastBulletFire g' = lastBulletFire g /\ gameOver g' = gameOver g.
Proof.
  unfold bulletEnemyCollisions.
  destruct (bulletsVsEnemies _ _ _ _) as [[[bs es] ex] sc'].
  simpl. repeat split.
Qed.

(** A player-collision pass rewrites only [gameOver] and [explosions]. *)
Lemma fold_hitPlayer_frame os g :
  let g' := fold_left hitPlayer os g in
  player g' = player g /\ bullets g' = bullets g /\
  enemyBullets g' = enemyBullets g /\ enemies g' = enemies g /\
  lastEnemySpawn g' = lastEnemySpawn g /\
  lastBulletFire g' = lastBulletFire g.
Proof.
  revert g. induction os as [|o os IH]; intro g; simpl.
  - repeat split.
  - specialize (IH (hitPlayer g o)). simpl in IH.
    unfold hitPlayer in *. destruct (active o && checkCollision o (player g));
      simpl in *; exact IH.
Qed.

Lemma afterPlayerCollisions_frame i w :
  let m := fst (afterBulletEnemy i w) in
  let g' := afterPlayerCollisions i w in
  player g' = player m /\ bullets g' = bullets m /\
  enemyBullets g' = enemyBullets m /\ enemies g' = enemies m /\
  lastEnemySpawn g' = lastEnemySpawn m /\
  lastBulletFire g' = lastBulletFire m.
Proof.
  intros m g'. subst g'. unfold afterPlayerCollisions.
  fold m.
  pose proof (fold_hitPlayer_frame (map body (enemies m)) m) as H1.
  simpl in H1. fold (enemyPlayerCollisions m) in H1.
  pose proof (fold_hitPlayer_frame (enemyBullets (enemyPlayerCollisions m))
                (enemyPlayerCollisions m)) as H2.
  simpl in H2. fold (enemyBulletPlayerCollisions (enemyPlayerCollisions m)) in H2.
  destruct H1 as (a1 & a2 & a3 & a4 & a5 & a6).
  destruct H2 as (b1 & b2 & b3 & b4 & b5 & b6).
  repeat split; congruence.
Qed.

Lemma updateGame_lastBulletFire i w :
  gameOver (gameState w) = false ->
  lastBulletFire (gameState (updateGame i w)) =
  lastBulletFire
    (autoFire i (movePlayer (gameSpeed (props w)) i (gameState w))).
Proof.
  intro Hgo. unfold updateGame. rewrite Hgo. simpl.
  destruct (afterPlayerCollisions_frame i w) as (_ & _ & _ & _ & _ & H).
  rewrite H. unfold afterBulletEnemy.
  destruct (bulletEnemyCollisions_frame
              (beforeCollisions (props w) i (gameState w)) (score w))
    as (_ & _ & _ & H' & _).
  rewrite H'. apply beforeCollisions_lastBulletFire.
Qed.

(** *** Terminal state *)

Lemma frozen_when_over i w :
  gameOver (gameState w) = true -> updateGame i w = w.
Proof. intro H. unfold updateGame. now rewrite H. Qed.

(** C1. When [gameOver] is already true the updater returns the previous
    state itself: the props, every field of the game state (player,
    bullets, enemyBullets, enemies, explosions, lastEnemySpawn,
    lastBulletFire, gameOver) and the score are those of before the call. *)
Theorem updateGame_gameOver_noop (i : TickInput) (w : World) :
  gameOver (gameState w) = true -> updateGame i w = w.
Proof. intro H. unfold updateGame. rewrite H. reflexivity. Qed.

(** *** Collision test *)

(** C7. [checkCollision a b] is true exactly when the two rectangles
    overlap strictly on both axes; it is a function of its two arguments
    and returns only the boolean, so neither argument is modified. *)
Theorem checkCollision_iff (a b : GameObject) :
  checkCollision a b = true <->
  x a < x b + width b /\ x a + width a > x b /\
  y a < y b + height b /\ y a + height a > y b.
Proof.
  unfold checkCollision.
  rewrite !andb_true_iff, !Qlt_bool_iff, !Qgt_bool_iff. tauto.
Qed.

(** *** Restart *)

(** C8. [resetGame] yields score 0, [gameOver] false, empty bullet,
    enemy-bullet, enemy and explosion lists and an active player of the
    configured size at the start position; the props (colours, sizes,
    speed multiplier) are the ones of before. *)
Theorem resetGame_fresh (w : World) :
  let w' := resetGame w in
  score w' = 0%Z /\ gameOver (gameState w') = false /\
  bullets (gameState w') = [] /\ enemyBullets (gameState w') = [] /\
  enemies (gameState w') = [] /\ explosions (gameState w') = [] /\
  active (player (gameState w')) = true /\
  width (player (gameState w')) = playerSize (props w) /\
  height (player (gameState w')) = playerSize (props w) /\
  props w' = props w.
Proof. simpl. repeat split. Qed.

(** *** Auto-fire *)

(** C6 (amended). In a step run while [gameOver] is false: if strictly
    more than 200 ms have passed since the last shot, exactly one bullet,
    built by [fireBullet] from the moved player, is appended to the bullet
    list and the fire timestamp of the resulting state is the current
    time; if at most 200 ms have passed, the bullet list is left as it was
    and the timestamp is kept.  Keys and touch play no part.  The list
    then goes through the bullet update of the same tick. *)
Theorem autoFire_gate (i : TickInput) (w : World) :
  gameOver (gameState w) = false ->
  let g1 := movePlayer (gameSpeed (props w)) i (gameState w) in
  ((now i - lastBulletFire (gameState w) > 200)%Z ->
     bullets (autoFire i g1) =
       bullets (gameState w) ++ [fireBullet (player g1)] /\
     lastBulletFire (gameState (updateGame i w)) = now i) /\
  ((now i - lastBulletFire (gameState w) <= 200)%Z ->
     bullets (autoFire i g1) = bullets (gameState w) /\
     lastBulletFire (gameState (updateGame i w)) =
       lastBulletFire (gameState w)) /\
  bullets (beforeCollisions (props w) i (gameState w)) =
    filter keepBullet
      (map (moveBullet (gameSpeed (props w))) (bullets (autoFire i g1))).
Proof.
  intros Hgo g1. rewrite (updateGame_lastBulletFire i w Hgo). fold g1.
  unfold autoFire. simpl.
  split; [|split].
  - intro Hgt. apply Z.gtb_gt in Hgt. rewrite Hgt. simpl. split; reflexivity.
  - intro Hle. destruct (Z.gtb_spec (now i - lastBulletFire (gameState w)) 200);
      [lia|]. split; reflexivity.
  - apply beforeCollisions_bullets.
Qed.

(** *** The bullet-enemy pass *)

Lemma decays_refl es : decays es es.
Proof. induction es; constructor; auto. Qed.

Lemma decays_types es es' : decays es es' -> map type es' = map type es.
Proof.
  induction 1 as [|e e' es es' [->|[_ ->]] _ IH]; simpl; congruence.
Qed.

Lemma destroyed_refl es : destroyed es es = [].
Proof.
  induction es as [|e es IH]; simpl; [reflexivity|].
  destruct (active e); simpl; exact IH.
Qed.

Lemma destroyed_app l xs ys :
  destroyed (l ++ xs) (l ++ ys) = destroyed xs ys.
Proof.
  induction l as [|e l IH]; simpl; [reflexivity|].
  destruct (active e); simpl; exact IH.
Qed.

Lemma destroyed_one (l : list Enemy) (e : Enemy) (r : list Enemy) :
  active e = true ->
  destroyed (l ++ e :: r) (l ++ deactivate e :: r) = [e].
Proof.
  intro Ha. rewrite destroyed_app. simpl. rewrite Ha. simpl.
  now rewrite destroyed_refl.
Qed.

Lemma destroyed_active es es' e :
  In e (destroyed es es') -> active e = true.
Proof.
  revert es'. induction es as [|a es IHes]; intros [|a2 es2];
    simpl; try contradiction.
  destruct (active a) eqn:Ha; simpl.
  - destruct (active a2); simpl; [apply IHes|].
    intros [<-|Hin]; [exact Ha | exact (IHes _ Hin)].
  - apply IHes.
Qed.

(** Two passes in a row destroy what the first destroys plus what the
    second destroys. *)
Lemma destroyed_trans es es' es'' :
  decays es es' -> decays es' es'' ->
  sumPoints (destroyed es es'') =
    (sumPoints (destroyed es es') + sumPoints (destroyed es' es''))%Z /\
  (forall e, In e (destroyed es es'') ->
             In e (destroyed es es') \/ In e (destroyed es' es'')).
Proof.
  intro H. revert es''.
  induction H as [|e e' es es' Hh _ IH]; intros es'' H2;
    inversion H2 as [|? e'' ? es2 Hh2 Ht2]; subst.
  - simpl. split; [reflexivity | tauto].
  - destruct (IH _ Ht2) as [IHs IHi]. clear IH.
    destruct Hh as [->|[Ha ->]]; destruct Hh2 as [->|[Ha2 ->]]; simpl.
    + destruct (active e); simpl; split; auto.
    + rewrite Ha2. simpl. split.
      * rewrite IHs. lia.
      * intros a [<-|Hin]; [right; now left|].
        destruct (IHi _ Hin); [left|right; right]; assumption.
    + rewrite Ha. simpl. split.
      * rewrite IHs. lia.
      * intros a [<-|Hin]; [left; now left|].
        destruct (IHi _ Hin); [left; right|right]; assumption.
    + simpl in Ha2. discriminate.
Qed.

Lemma decays_trans es es' es'' :
  decays es es' -> decays es' es'' -> decays es es''.
Proof.
  intro H. revert es''.
  induction H as [|e e' es es' Hh _ IH]; intros es'' H2;
    inversion H2 as [|? e'' ? es2 Hh2 Ht2]; subst; constructor.
  - destruct Hh as [->|[Ha ->]]; destruct Hh2 as [->|[Ha2 ->]]; auto.
  - apply IH, Ht2.
Qed.

(** A spent bullet goes through the inner loop without any effect. *)
Lemma bulletVsEnemies_inactive b es ex sc :
  active b = false -> bulletVsEnemies b es ex sc = (b, es, ex, sc).
Proof.
  intro Hb. revert ex sc.
  induction es as [|e es IH]; intros ex sc; simpl; [reflexivity|].
  rewrite Hb. simpl. now rewrite IH.
Qed.

(** The inner loop for one bullet: nothing happens, or exactly the first
    active enemy it overlaps is hit. *)
Lemma bulletVsEnemies_cases b es ex sc :
  (missesAll b es /\ bulletVsEnemies b es ex sc = (b, es, ex, sc)) \/
  (exists l e r, hitsFirst b es l e r /\
     bulletVsEnemies b es ex sc =
       (setActive b false, l ++ deactivate e :: r,
        ex ++ [enemyExplosion e], (sc + points e)%Z)).
Proof.
  induction es as [|e es IH]; simpl.
  - left. split; [intros e []|reflexivity].
  - destruct (active b && active e && checkCollision b e) eqn:Hc.
    + right. exists [], e, es.
      apply andb_true_iff in Hc as [Hc Hcol].
      apply andb_true_iff in Hc as [Hb He].
      split.
      * repeat split; auto. intros e0 [].
      * rewrite bulletVsEnemies_inactive by reflexivity. reflexivity.
    + destruct IH as [[Hm ->]|(l & e1 & r & (-> & Hb & He & Hcol & Hl) & ->)].
      * left. split; [|reflexivity].
        intros e0 [<-|Hin]; [exact Hc | exact (Hm _ Hin)].
      * right. exists (e :: l), e1, r. split; [|reflexivity].
        repeat split; auto.
        intros e0 [<-|Hin]; [|exact (Hl _ Hin)].
        rewrite Hb in Hc. exact Hc.
Qed.

Lemma bulletVsEnemies_summary b es ex sc b' es' ex' sc' :
  bulletVsEnemies b es ex sc = (b', es', ex', sc') ->
  decays es es' /\
  sc' = (sc + sumPoints (destroyed es es'))%Z /\
  ex' = ex ++ map enemyExplosion (destroyed es es') /\
  (forall e, In e (destroyed es es') ->
     active b = true /\ active e = true /\ checkCollision b e = true).
Proof.
  intro E.
  destruct (bulletVsEnemies_cases b es ex sc)
    as [[Hm E']|(l & e & r & (-> & Hb & He & Hcol & Hl) & E')];
    rewrite E' in E; inversion E; subst; clear E.
  - rewrite destroyed_refl. simpl. repeat split.
    + apply decays_refl.
    + lia.
    + now rewrite app_nil_r.
    + contradiction.
    + contradiction.
    + contradiction.
  - rewrite destroyed_one by assumption. simpl. repeat split.
    + unfold decays. apply Forall2_app; [apply decays_refl|].
      constructor; [right; auto | apply decays_refl].
    + lia.
    + destruct H as [<-|[]]; assumption.
    + destruct H as [<-|[]]; assumption.
    + destruct H as [<-|[]]; assumption.
Qed.

Lemma bulletsVsEnemies_summary bs es ex sc bs' es' ex' sc' :
  bulletsVsEnemies bs es ex sc = (bs', es', ex', sc') ->
  decays es es' /\
  sc' = (sc + sumPoints (destroyed es es'))%Z /\
  (exists new, ex' = ex ++ new /\
               Forall (fun e => Explosion.frame e = 0%Z) new) /\
  (forall e, In e (destroyed es es') ->
     active e = true /\
     exists b, In b bs /\ active b = true /\ checkCollision b e = true).
Proof.
  revert es ex sc bs' es' ex' sc'.
  induction bs as [|b bs IH]; intros es ex sc bs' es' ex' sc' E; simpl in E.
  - inversion E; subst. rewrite destroyed_refl. simpl.
    repeat split; [apply decays_refl | lia | | contradiction | contradiction].
    exists []. now rewrite app_nil_r.
  - destruct (bulletVsEnemies b es ex sc) as [[[b1 es1] ex1] sc1] eqn:E1.
    destruct (bulletsVsEnemies bs es1 ex1 sc1) as [[[bs2 es2] ex2] sc2] eqn:E2.
    inversion E; subst; clear E.
    apply bulletVsEnemies_summary in E1 as (D1 & S1 & X1 & C1).
    apply IH in E2 as (D2 & S2 & (new & X2 & F2) & C2).
    destruct (destroyed_trans _ _ _ D1 D2) as [Hs Hi].
    split; [exact (decays_trans _ _ _ D1 D2)|].
    split; [lia|]. split.
    + exists (map enemyExplosion (destroyed es es1) ++ new).
      split; [subst; now rewrite app_assoc|].
      apply Forall_app. split; [|exact F2].
      apply Forall_forall. intros e He. apply in_map_iff in He as (a & <- & _).
      reflexivity.
    + intros e He. destruct (Hi _ He) as [H1|H2].
      * destruct (C1 _ H1) as (Hb & Hae & Hcol). split; [exact Hae|].
        exists b. repeat split; auto. now left.
      * destruct (C2 _ H2) as (Hae & b0 & Hin & Hb & Hcol).
        split; [exact (destroyed_active _ _ _ He)|].
        exists b0. repeat split; auto. now right.
Qed.

Lemma bulletsVsEnemies_app bs1 b bs2 es ex sc :
  bulletsVsEnemies (bs1 ++ b :: bs2) es ex sc =
  let '(bs1', es1, ex1, sc1) := bulletsVsEnemies bs1 es ex sc in
  let '(b', es2, ex2, sc2) := bulletVsEnemies b es1 ex1 sc1 in
  let '(bs2', es3, ex3, sc3) := bulletsVsEnemies bs2 es2 ex2 sc2 in
  (bs1' ++ b' :: bs2', es3, ex3, sc3).
Proof.
  revert es ex sc. induction bs1 as [|a bs1 IH]; intros es ex sc; simpl.
  - reflexivity.
  - destruct (bulletVsEnemies a es ex sc) as [[[a' es0] ex0] sc0].
    rewrite IH.
    destruct (bulletsVsEnemies bs1 es0 ex0 sc0) as [[[bs1' es1] ex1] sc1].
    destruct (bulletVsEnemies b es1 ex1 sc1) as [[[b' es2] ex2] sc2].
    destruct (bulletsVsEnemies bs2 es2 ex2 sc2) as [[[bs2' es3] ex3] sc3].
    reflexivity.
Qed.

(** *** The two player-collision passes *)

Lemma hitPlayer_player g o : player (hitPlayer g o) = player g.
Proof. unfold hitPlayer. now destruct (active o && checkCollision o (player g)). Qed.

Lemma fold_hitPlayer_effect os g :
  let p := player g in
  let g' := fold_left hitPlayer os g in
  explosions g' =
    explosions g ++ repeat (playerExplosion p) (List.length (colliders p os)) /\
  gameOver g' =
    gameOver g || existsb (fun o => active o && checkCollision o p) os.
Proof.
  revert g. induction os as [|o os IH]; intro g; simpl.
  - now rewrite app_nil_r, orb_false_r.
  - specialize (IH (hitPlayer g o)). simpl in IH.
    rewrite hitPlayer_player in IH. destruct IH as [IHx IHg].
    rewrite IHx, IHg. unfold hitPlayer.
    destruct (active o && checkCollision o (player g)); simpl.
    + rewrite <- app_assoc. simpl. now rewrite orb_true_r.
    + split; reflexivity.
Qed.

Lemma afterPlayerCollisions_effect i w :
  let m := fst (afterBulletEnemy i w) in
  let p := player m in
  let g' := afterPlayerCollisions i w in
  explosions g' =
    explosions m ++
    repeat (playerExplosion p)
           (List.length (colliders p (map body (enemies m)) ++
                    colliders p (enemyBullets m))) /\
  gameOver g' =
    gameOver m ||
    existsb (fun o => active o && checkCollision o p)
            (map body (enemies m) ++ enemyBullets m).
Proof.
  intros m p g'. subst g' p. unfold afterPlayerCollisions. fold m.
  destruct (fold_hitPlayer_effect (map body (enemies m)) m) as [X1 G1].
  destruct (fold_hitPlayer_frame (map body (enemies m)) m)
    as (P1 & _ & B1 & _).
  fold (enemyPlayerCollisions m) in X1, G1, P1, B1.
  destruct (fold_hitPlayer_effect (enemyBullets (enemyPlayerCollisions m))
              (enemyPlayerCollisions m)) as [X2 G2].
  fold (enemyBulletPlayerCollisions (enemyPlayerCollisions m)) in X2, G2.
  rewrite X2, G2, X1, G1, P1, B1.
  rewrite length_app, repeat_app, app_assoc, existsb_app, orb_assoc.
  split; reflexivity.
Qed.

(** *** Invariants of the reachable worlds *)

Lemma keyboardMove_active gs ks p : active (keyboardMove gs ks p) = active p.
Proof.
  unfold keyboardMove. cbv zeta.
  repeat match goal with
  | |- context [if ?c then _ else _] => destruct c
  end; reflexivity.
Qed.

Lemma touchMove_active gs t p : active (touchMove gs t p) = active p.
Proof.
  unfold touchMove. destruct t as [[tx ty]|]; [|reflexivity]. cbv zeta.
  match goal with
  | |- context [if ?c then _ else _] => destruct c
  end; reflexivity.
Qed.

Lemma updateGame_player i w :
  gameOver (gameState w) = false ->
  player (gameState (updateGame i w)) =
  touchMove (gameSpeed (props w)) (touch i)
    (keyboardMove (gameSpeed (props w)) (keys i) (player (gameState w))).
Proof.
  intro Hgo. unfold updateGame. rewrite Hgo.
  change (player (afterPlayerCollisions i w) = player
            (movePlayer (gameSpeed (props w)) i (gameState w))).
  destruct (afterPlayerCollisions_frame i w) as (-> & _).
  unfold afterBulletEnemy.
  destruct (bulletEnemyCollisions_frame
              (beforeCollisions (props w) i (gameState w)) (score w))
    as (-> & _).
  apply beforeCollisions_player.
Qed.

Lemma floor_of_random r :
  0 <= r -> r < 1 -> Qfloor (r * 2) = 0%Z \/ Qfloor (r * 2) = 1%Z.
Proof.
  intros H0 H1.
  assert (0 <= Qfloor (r * 2))%Z as L.
  { change 0%Z with (Qfloor (inject_Z 0)). apply Qfloor_resp_le.
    change (inject_Z 0) with 0. lra. }
  assert (Qfloor (r * 2) < 2)%Z as U.
  { rewrite Zlt_Qlt. apply Qle_lt_trans with (r * 2); [apply Qfloor_le|].
    change (inject_Z 2) with 2. lra. }
  lia.
Qed.

Lemma enemiesLoop_types (P : Z -> Prop) gs rnd k es ebs :
  Forall (fun e : Enemy => P (type e)) es ->
  Forall (fun e : Enemy => P (type e)) (fst (enemiesLoop gs rnd k es ebs)).
Proof.
  intro H. revert k ebs. induction H as [|e es He _ IH]; intros k ebs; simpl.
  - constructor.
  - match goal with
    | |- context [enemiesLoop ?a ?b ?c ?d ?f] =>
        specialize (IH c f); destruct (enemiesLoop a b c d f) as [rest' ebs'']
    end.
    simpl in IH.
    match goal with
    | |- context [if ?c then _ else _] => destruct c
    end; [constructor; [exact He | exact IH] | exact IH].
Qed.

Lemma updateEnemies_enemies gs rnd k g :
  enemies (updateEnemies gs rnd k g) =
  fst (enemiesLoop gs rnd k (enemies g) (enemyBullets g)).
Proof.
  unfold updateEnemies. now destruct (enemiesLoop _ _ _ _ _).
Qed.

Lemma beforeCollisions_types p i g :
  valid_input i ->
  Forall (fun e : Enemy => type e = 0%Z \/ type e = 1%Z) (enemies g) ->
  Forall (fun e : Enemy => type e = 0%Z \/ type e = 1%Z)
         (enemies (beforeCollisions p i g)).
Proof.
  intros Hv Hg. unfold beforeCollisions. cbv zeta.
  match goal with
  | |- context [spawnPhase ?a ?b ?c] =>
      assert (Forall (fun e : Enemy => type e = 0%Z \/ type e = 1%Z)
                     (enemies (fst (spawnPhase a b c)))) as Hs;
      [|destruct (spawnPhase a b c) as [g5 k]]
  end.
  - unfold spawnPhase, updateEnemyBullets, updateBullets, autoFire.
    repeat match goal with
    | |- context [(?a >? ?b)%Z] => destruct (a >? b)%Z
    end; cbn [fst enemies setLastEnemySpawn setEnemies setEnemyBullets
              setBullets setLastBulletFire movePlayer setPlayer];
      try exact Hg;
      (apply Forall_app; split; [exact Hg|]; constructor; [|constructor];
       destruct (Hv 2%nat); now apply floor_of_random).
  - rewrite updateEnemies_enemies.
    apply (enemiesLoop_types (fun t => t = 0%Z \/ t = 1%Z)). exact Hs.
Qed.

Lemma Forall_types_of_map (P : Z -> Prop) (es es' : list Enemy) :
  map type es' = map type es ->
  Forall (fun e : Enemy => P (type e)) es ->
  Forall (fun e : Enemy => P (type e)) es'.
Proof.
  revert es'. induction es as [|e es IH]; intros [|e' es'] E H;
    simpl in E; try discriminate; constructor.
  - inversion E as [[E1 E2]]. rewrite E1. now inversion H.
  - inversion E. inversion H; subst. now apply IH.
Qed.

Lemma afterBulletEnemy_facts i w :
  let m := beforeCollisions (props w) i (gameState w) in
  let m' := fst (afterBulletEnemy i w) in
  decays (enemies m) (enemies m') /\
  snd (afterBulletEnemy i w) =
    (score w + sumPoints (destroyed (enemies m) (enemies m')))%Z /\
  (exists new, explosions m' = explosions m ++ new /\
               Forall (fun e => Explosion.frame e = 0%Z) new) /\
  (forall e, In e (destroyed (enemies m) (enemies m')) ->
     active e = true /\
     exists b, In b (bullets m) /\ active b = true /\
               checkCollision b e = true).
Proof.
  intros m m'. subst m'. unfold afterBulletEnemy, bulletEnemyCollisions.
  fold m.
  destruct (bulletsVsEnemies (bullets m) (enemies m) (explosions m) (score w))
    as [[[bs es] ex] sc'] eqn:E.
  apply bulletsVsEnemies_summary in E. exact E.
Qed.

Lemma age_frames ex :
  Forall (fun e => (0 <= Explosion.frame e)%Z) ex ->
  Forall (fun e => (1 <= Explosion.frame e <= 9)%Z)
         (filter (fun e => (Explosion.frame e <? 10)%Z) (map ageExplosion ex)).
Proof.
  induction 1 as [|e ex He _ IH]; simpl; [constructor|].
  destruct (Z.ltb_spec (Explosion.frame e + 1) 10); [|exact IH].
  constructor; [simpl; lia | exact IH].
Qed.

(** The explosion list of the next state: the old explosions and the ones
    pushed during the tick at frame 0, all aged by one, those reaching
    frame 10 dropped. *)
Lemma updateGame_explosions i w :
  gameOver (gameState w) = false ->
  exists new,
    Forall (fun e => Explosion.frame e = 0%Z) new /\
    explosions (gameState (updateGame i w)) =
      filter (fun e => (Explosion.frame e <? 10)%Z)
             (map ageExplosion (explosions (gameState w) ++ new)).
Proof.
  intro Hgo. unfold updateGame. rewrite Hgo.
  cbn [gameState updateExplosions pruneInactive explosions setExplosions
       setEnemies setEnemyBullets setBullets].
  destruct (afterPlayerCollisions_effect i w) as [-> _].
  destruct (afterBulletEnemy_facts i w) as (_ & _ & (new & -> & Hn) & _).
  rewrite beforeCollisions_explosions.
  eexists. split; [|rewrite <- app_assoc; reflexivity].
  apply Forall_app. split; [exact Hn|].
  apply Forall_forall. intros e He. apply repeat_spec in He. now subst.
Qed.

Lemma updateGame_enemies i w :
  gameOver (gameState w) = false ->
  enemies (gameState (updateGame i w)) =
  filter (fun e : Enemy => active e) (enemies (fst (afterBulletEnemy i w))).
Proof.
  intro Hgo. unfold updateGame. rewrite Hgo.
  cbn [gameState updateExplosions pruneInactive enemies setExplosions
       setEnemies setEnemyBullets setBullets].
  destruct (afterPlayerCollisions_frame i w) as (_ & _ & _ & -> & _).
  reflexivity.
Qed.

Lemma updateGame_inv i w :
  valid_input i ->
  playerAlive w /\ enemyTypesOk w /\ framesOk w ->
  playerAlive (updateGame i w) /\ enemyTypesOk (updateGame i w) /\
  framesOk (updateGame i w).
Proof.
  intros Hv (Hp & Ht & Hf).
  destruct (gameOver (gameState w)) eqn:Hgo.
  { rewrite frozen_when_over by exact Hgo. auto. }
  unfold playerAlive, enemyTypesOk, framesOk in *.
  split; [|split].
  - rewrite updateGame_player by exact Hgo.
    now rewrite touchMove_active, keyboardMove_active.
  - rewrite updateGame_enemies by exact Hgo.
    apply (incl_Forall (incl_filter _ _)).
    destruct (afterBulletEnemy_facts i w) as (D & _).
    apply decays_types in D.
    apply (Forall_types_of_map (fun t => t = 0%Z \/ t = 1%Z) _ _ D).
    now apply beforeCollisions_types.
  - destruct (updateGame_explosions i w Hgo) as (new & Hn & ->).
    apply age_frames. apply Forall_app. split.
    + eapply Forall_impl; [|exact Hf]. simpl. intros; lia.
    + eapply Forall_impl; [|exact Hn]. simpl. intros ? ->. lia.
Qed.

Lemma reachable_inv w :
  reachable w -> playerAlive w /\ enemyTypesOk w /\ framesOk w.
Proof.
  induction 1 as [p | i w _ IH Hv | w _ IH | p w _ IH].
  - repeat split; constructor.
  - now apply updateGame_inv.
  - repeat split; constructor.
  - destruct IH as (Hp & Ht & Hf). repeat split; assumption.
Qed.

Lemma reachable_run ins w :
  reachable w -> Forall valid_input ins -> reachable (run ins w).
Proof.
  intros Hr Hv. revert w Hr. induction Hv as [|i ins Hi _ IH]; intros w Hr.
  - exact Hr.
  - simpl. apply IH. now constructor.
Qed.

Lemma destroyed_In es es' e : In e (destroyed es es') -> In e es.
Proof.
  revert es'. induction es as [|a es IH]; intros [|a' es'];
    simpl; try contradiction.
  destruct (active a && negb (active a')).
  - intros [<-|H]; [now left | right; exact (IH _ H)].
  - intro H. right. exact (IH _ H).
Qed.

Lemma sumPoints_nonneg es :
  Forall (fun e : Enemy => type e = 0%Z \/ type e = 1%Z) es ->
  (0 <= sumPoints es)%Z.
Proof.
  induction 1 as [|e es [He|He] _ IH]; simpl; unfold points;
    try rewrite He; lia.
Qed.

Lemma hits_typed i w :
  valid_input i -> enemyTypesOk w ->
  Forall (fun e : Enemy => type e = 0%Z \/ type e = 1%Z)
    (destroyed (enemies (beforeCollisions (props w) i (gameState w)))
               (enemies (fst (afterBulletEnemy i w)))).
Proof.
  intros Hv Ht. apply Forall_forall. intros e He.
  apply destroyed_In in He.
  pose proof (beforeCollisions_types (props w) i (gameState w) Hv Ht) as H.
  rewrite Forall_forall in H. exact (H _ He).
Qed.

Lemma updateGame_score i w :
  gameOver (gameState w) = false ->
  score (updateGame i w) =
  (score w +
   sumPoints
     (destroyed (enemies (beforeCollisions (props w) i (gameState w)))
                (enemies (fst (afterBulletEnemy i w)))))%Z.
Proof.
  intro Hgo. unfold updateGame. rewrite Hgo. cbn [score].
  now destruct (afterBulletEnemy_facts i w) as (_ & -> & _).
Qed.

Lemma updateGame_score_le i w :
  reachable w -> valid_input i -> (score w <= score (updateGame i w))%Z.
Proof.
  intros Hr Hv. destruct (gameOver (gameState w)) eqn:Hgo.
  - rewrite frozen_when_over by exact Hgo. lia.
  - rewrite updateGame_score by exact Hgo.
    destruct (reachable_inv w Hr) as (_ & Ht & _).
    pose proof (sumPoints_nonneg _ (hits_typed i w Hv Ht)). lia.
Qed.

(** When the bullet-enemy pass destroys no enemy, every bullet of the
    scanned list missed every enemy. *)
Lemma destroyed_nil_split es es' es'' :
  decays es es' -> decays es' es'' -> destroyed es es'' = [] ->
  destroyed es es' = [] /\ destroyed es' es'' = [].
Proof.
  intro H. revert es''.
  induction H as [|e e' es es' Hh _ IH]; intros es'' H2 Hnil;
    inversion H2 as [|? e'' ? es2 Hh2 Ht2]; subst.
  - split; reflexivity.
  - destruct Hh as [->|[Ha ->]]; destruct Hh2 as [->|[Ha2 ->]];
      simpl in Hnil |- *.
    + destruct (active e); simpl in Hnil |- *; exact (IH _ Ht2 Hnil).
    + rewrite Ha2 in Hnil. simpl in Hnil. discriminate.
    + rewrite Ha in Hnil. simpl in Hnil. discriminate.
    + simpl in Ha2. discriminate.
Qed.

Lemma bulletsVsEnemies_no_hit bs es ex sc bs' es' ex' sc' :
  bulletsVsEnemies bs es ex sc = (bs', es', ex', sc') ->
  destroyed es es' = [] ->
  forall b, In b bs -> missesAll b es.
Proof.
  revert ex sc bs' es' ex' sc'.
  induction bs as [|b0 bs IH]; intros ex sc bs' es' ex' sc' E Hnil b Hin;
    [contradiction|].
  simpl in E.
  destruct (bulletVsEnemies b0 es ex sc) as [[[b1 es1] ex1] sc1] eqn:E1.
  destruct (bulletsVsEnemies bs es1 ex1 sc1) as [[[bs2 es2] ex2] sc2] eqn:E2.
  inversion E; subst; clear E.
  pose proof (bulletVsEnemies_summary _ _ _ _ _ _ _ _ E1) as (D1 & _).
  pose proof (bulletsVsEnemies_summary _ _ _ _ _ _ _ _ E2) as (D2 & _).
  destruct (destroyed_nil_split _ _ _ D1 D2 Hnil) as [N1 N2].
  destruct (bulletVsEnemies_cases b0 es ex sc)
    as [[Hm E]|(l & e & r & (-> & Hb & He & Hcol & Hl) & E)];
    rewrite E in E1; inversion E1; subst; clear E1.
  - destruct Hin as [<-|Hin]; [exact Hm|].
    exact (IH _ _ _ _ _ _ E2 N2 b Hin).
  - rewrite destroyed_one in N1 by exact He. discriminate.
Qed.

Lemma afterBulletEnemy_no_hit i w :
  let m := beforeCollisions (props w) i (gameState w) in
  destroyed (enemies m) (enemies (fst (afterBulletEnemy i w))) = [] ->
  forall b, In b (bullets m) -> missesAll b (enemies m).
Proof.
  intros m. unfold afterBulletEnemy, bulletEnemyCollisions. fold m.
  destruct (bulletsVsEnemies (bullets m) (enemies m) (explosions m) (score w))
    as [[[bs es] ex] sc'] eqn:E.
  cbn [fst enemies setExplosions setEnemies setBullets].
  exact (bulletsVsEnemies_no_hit _ _ _ _ _ _ _ _ E).
Qed.

Lemma sumPoints_pos es :
  es <> [] ->
  Forall (fun e : Enemy => type e = 0%Z \/ type e = 1%Z) es ->
  (0 < sumPoints es)%Z.
Proof.
  intros Hne H. destruct H as [|e es He Hes]; [contradiction|].
  pose proof (sumPoints_nonneg _ Hes). simpl. unfold points.
  destruct He as [->| ->]; lia.
Qed.

(** *** Score *)

(** C3. From any world the component can be in, the score after any
    sequence of steps is at least the score before.  In one step the score
    changes only through the bullet-enemy pass: it grows by the sum, over
    the enemies destroyed in that pass, of [(type + 1) * 10] (10 or 20),
    and each of those enemies was active and overlapped an active player
    bullet; with no such enemy, and in the terminal state, the score is
    unchanged.  Conversely, whenever an active bullet overlaps an active
    enemy when the pass starts, an enemy is destroyed and the score grows:
    the score strictly increases exactly when such a pair exists. *)
Theorem score_never_decreases (w : World) :
  reachable w ->
  (forall ins, Forall valid_input ins -> (score w <= score (run ins w))%Z) /\
  (forall i, valid_input i ->
     let w' := updateGame i w in
     let m := beforeCollisions (props w) i (gameState w) in
     let hit := destroyed (enemies m) (enemies (fst (afterBulletEnemy i w))) in
     (gameOver (gameState w) = true -> score w' = score w) /\
     (gameOver (gameState w) = false ->
        score w' = (score w + sumPoints hit)%Z /\
        Forall (fun e : Enemy =>
                  points e = ((type e + 1) * 10)%Z /\
                  (points e = 10 \/ points e = 20)%Z /\
                  active e = true /\
                  exists b, In b (bullets m) /\ active b = true /\
                            checkCollision b e = true) hit /\
        (hit = [] -> score w' = score w) /\
        ((score w < score w')%Z -> hit <> []) /\
        (forall (b : Bullet) (e : Enemy),
           In b (bullets m) -> In e (enemies m) ->
           active b = true -> active e = true -> checkCollision b e = true ->
           hit <> [] /\ (score w + 10 <= score w')%Z) /\
        ((score w < score w')%Z <->
         exists (b : Bullet) (e : Enemy),
           In b (bullets m) /\ In e (enemies m) /\
           active b = true /\ active e = true /\
           checkCollision b e = true))).
Proof.
  intro Hr. split.
  - intros ins Hv. revert w Hr.
    induction Hv as [|i ins Hi _ IH]; intros w Hr; simpl; [lia|].
    apply Z.le_trans with (score (updateGame i w)).
    + now apply updateGame_score_le.
    + apply IH. now constructor.
  - intros i Hv w' m hit. split.
    + intro Hgo. subst w'. now rewrite frozen_when_over.
    + intro Hgo. subst w'. rewrite (updateGame_score i w Hgo). fold m hit.
      destruct (reachable_inv w Hr) as (_ & Ht & _).
      pose proof (hits_typed i w Hv Ht) as Hty. fold m hit in Hty.
      destruct (afterBulletEnemy_facts i w) as (_ & _ & _ & Hc).
      fold m hit in Hc.
      pose proof (afterBulletEnemy_no_hit i w) as Hno. cbv zeta in Hno.
      fold m hit in Hno.
      assert (forall (b : Bullet) (e : Enemy),
                In b (bullets m) -> In e (enemies m) ->
                active b = true -> active e = true ->
                checkCollision b e = true ->
                hit <> [] /\ (score w + 10 <= score w + sumPoints hit)%Z)
        as Hpair.
      { intros b e Hb He Ab Ae Hcol.
        assert (hit <> []) as Hne.
        { intro Hnil. pose proof (Hno Hnil b Hb e He) as Hmiss.
          rewrite Ab, Ae, Hcol in Hmiss. discriminate. }
        split; [exact Hne|].
        destruct hit as [|e0 rest] eqn:Eh; [contradiction|].
        inversion Hty as [|? ? Hty0 Htyr]; subst.
        pose proof (sumPoints_nonneg _ Htyr). simpl. unfold points.
        destruct Hty0 as [->| ->]; lia. }
      split; [reflexivity|]. split; [|split; [|split; [|split]]].
      * apply Forall_forall. intros e He.
        rewrite Forall_forall in Hty.
        split; [reflexivity|]. split.
        -- unfold points. destruct (Hty _ He) as [->| ->]; [left|right]; reflexivity.
        -- exact (Hc _ He).
      * intros ->. simpl. lia.
      * intros Hlt ->. simpl in Hlt. lia.
      * exact Hpair.
      * split.
        -- intro Hlt.
           destruct hit as [|e0 rest] eqn:Eh; [simpl in Hlt; lia|].
           assert (In e0 hit) as Hin by (rewrite Eh; now left).
           rewrite <- Eh in Hc.
           destruct (Hc e0 Hin) as (Ae & b & Hb & Ab & Hcol).
           exists b, e0. split; [exact Hb|]. split; [|auto].
           unfold hit in Hin. exact (destroyed_In _ _ _ Hin).
        -- intros (b & e & Hb & He & Ab & Ae & Hcol).
           destruct (Hpair b e Hb He Ab Ae Hcol) as [_ Hle]. lia.
Qed.

(** C4. In the bullet-enemy pass of a step, take any bullet [b] of the
    scanned list.  The scan is the left-to-right loop over the bullets, each
    with a left-to-right loop over the enemies.  When the turn of [b] comes,
    either it hits nothing and leaves enemies, explosions and score as they
    are, or it hits exactly the first active enemy it overlaps: that one
    enemy is deactivated, one explosion is pushed, the score grows once by
    that enemy's points, and [b] is inactive from then on, whatever else it
    overlaps further in the list. *)
Theorem bullet_scores_at_most_once
        (i : TickInput) (w : World) (bs1 : list Bullet) (b : Bullet)
        (bs2 : list Bullet) :
  gameOver (gameState w) = false ->
  bullets (beforeCollisions (props w) i (gameState w)) = bs1 ++ b :: bs2 ->
  let m := beforeCollisions (props w) i (gameState w) in
  let '(bs1', es1, ex1, sc1) :=
    bulletsVsEnemies bs1 (enemies m) (explosions m) (score w) in
  let '(b', es2, ex2, sc2) := bulletVsEnemies b es1 ex1 sc1 in
  let '(bs2', es3, ex3, sc3) := bulletsVsEnemies bs2 es2 ex2 sc2 in
  afterBulletEnemy i w =
    (setExplosions (setEnemies (setBullets m (bs1' ++ b' :: bs2')) es3) ex3,
     sc3) /\
  score (updateGame i w) = sc3 /\
  ((missesAll b es1 /\
    b' = b /\ es2 = es1 /\ ex2 = ex1 /\ sc2 = sc1) \/
   (exists l e r,
      hitsFirst b es1 l e r /\
      b' = setActive b false /\ es2 = l ++ deactivate e :: r /\
      ex2 = ex1 ++ [enemyExplosion e] /\ sc2 = (sc1 + points e)%Z /\
      destroyed es1 es2 = [e])).
Proof.
  intros Hgo Hb m.
  pose proof (bulletsVsEnemies_app bs1 b bs2 (enemies m) (explosions m)
                (score w)) as Happ.
  assert (score (updateGame i w) = snd (afterBulletEnemy i w)) as Hsc.
  { unfold updateGame. rewrite Hgo. reflexivity. }
  assert (afterBulletEnemy i w =
          let '(bs, es, ex, sc') :=
            bulletsVsEnemies (bs1 ++ b :: bs2) (enemies m) (explosions m)
                             (score w) in
          (setExplosions (setEnemies (setBullets m bs) es) ex, sc')) as Hab.
  { unfold afterBulletEnemy, bulletEnemyCollisions. fold m.
    rewrite <- Hb. reflexivity. }
  rewrite Hsc, Hab, Happ. clear Happ Hsc Hab.
  destruct (bulletsVsEnemies bs1 (enemies m) (explosions m) (score w))
    as [[[bs1' es1] ex1] sc1].
  destruct (bulletVsEnemies_cases b es1 ex1 sc1)
    as [[Hm E]|(l & e & r & Hh & E)]; rewrite E.
  - destruct (bulletsVsEnemies bs2 es1 ex1 sc1) as [[[bs2' es3] ex3] sc3].
    split; [reflexivity|]. split; [reflexivity|]. left. auto.
  - destruct (bulletsVsEnemies bs2 _ _ _) as [[[bs2' es3] ex3] sc3].
    split; [reflexivity|]. split; [reflexivity|]. right.
    exists l, e, r. repeat split; try apply Hh.
    destruct Hh as (-> & _ & He & _). now apply destroyed_one.
Qed.

(** *** Game over *)

Lemma afterBulletEnemy_gameOver i w :
  gameOver (fst (afterBulletEnemy i w)) = gameOver (gameState w).
Proof.
  unfold afterBulletEnemy.
  destruct (bulletEnemyCollisions_frame
              (beforeCollisions (props w) i (gameState w)) (score w))
    as (_ & _ & _ & _ & ->).
  apply beforeCollisions_gameOver.
Qed.

Lemma afterBulletEnemy_player i w :
  player (fst (afterBulletEnemy i w)) =
  player (movePlayer (gameSpeed (props w)) i (gameState w)).
Proof.
  unfold afterBulletEnemy.
  destruct (bulletEnemyCollisions_frame
              (beforeCollisions (props w) i (gameState w)) (score w))
    as (-> & _).
  apply beforeCollisions_player.
Qed.

Lemma updateGame_gameOver i w :
  gameOver (gameState w) = false ->
  gameOver (gameState (updateGame i w)) =
  existsb (fun o => active o &&
                    checkCollision o (player (fst (afterBulletEnemy i w))))
          (map body (enemies (fst (afterBulletEnemy i w))) ++
           enemyBullets (fst (afterBulletEnemy i w))).
Proof.
  intro Hgo. unfold updateGame. rewrite Hgo.
  change (gameOver (afterPlayerCollisions i w) = existsb
    (fun o => active o &&
              checkCollision o (player (fst (afterBulletEnemy i w))))
    (map body (enemies (fst (afterBulletEnemy i w))) ++
     enemyBullets (fst (afterBulletEnemy i w)))).
  destruct (afterPlayerCollisions_effect i w) as [_ ->].
  now rewrite afterBulletEnemy_gameOver, Hgo.
Qed.

Lemma filter_none {A} (f : A -> bool) (l : list A) :
  (forall a, In a l -> f a = false) -> filter f l = [].
Proof.
  induction l as [|a l IH]; intro H; simpl; [reflexivity|].
  rewrite (H a) by now left. apply IH. intros a' Ha'. apply H. now right.
Qed.

Lemma colliders_In p os o :
  In o (colliders p os) <->
  In o os /\ active o = true /\ checkCollision o p = true.
Proof.
  unfold colliders. rewrite filter_In, andb_true_iff. tauto.
Qed.

(** C5. In a step from a reachable world, the enemy-player and
    enemy-bullet-player passes set [gameOver] exactly when some enemy or
    enemy bullet of the state left by the bullet-enemy pass is active and
    overlaps the player, who is active; one explosion is pushed per such
    object.  An inactive object, in particular an enemy deactivated by a
    bullet in the same tick, is not counted: if the active ones all miss
    the player, [gameOver] stays false and no explosion is pushed. *)
Theorem player_collision_counts_only_alive (i : TickInput) (w : World) :
  reachable w ->
  gameOver (gameState w) = false ->
  let m := fst (afterBulletEnemy i w) in
  let p := player m in
  let hitters :=
    colliders p (map body (enemies m)) ++ colliders p (enemyBullets m) in
  (gameOver (gameState (updateGame i w)) = true <->
     exists o, In o (map body (enemies m) ++ enemyBullets m) /\
               active o = true /\ active p = true /\
               checkCollision o p = true) /\
  explosions (afterPlayerCollisions i w) =
    explosions m ++ repeat (playerExplosion p) (List.length hitters) /\
  (forall o, In o hitters ->
             active o = true /\ active p = true /\
             checkCollision o p = true) /\
  ((forall o, In o (map body (enemies m) ++ enemyBullets m) ->
              active o = true -> checkCollision o p = false) ->
   gameOver (gameState (updateGame i w)) = false /\
   explosions (afterPlayerCollisions i w) = explosions m).
Proof.
  intros Hr Hgo m p hitters.
  assert (active p = true) as Hp.
  { subst p m. rewrite afterBulletEnemy_player. unfold movePlayer.
    cbn [player setPlayer].
    rewrite touchMove_active, keyboardMove_active.
    now destruct (reachable_inv w Hr). }
  rewrite (updateGame_gameOver i w Hgo). fold m p.
  destruct (afterPlayerCollisions_effect i w) as [Hx _]. fold m p in Hx.
  fold hitters in Hx.
  split; [|split; [exact Hx|split]].
  - rewrite existsb_exists. split.
    + intros (o & Hin & Hc). apply andb_true_iff in Hc as [Ha Hc].
      exists o. auto.
    + intros (o & Hin & Ha & _ & Hc). exists o. now rewrite Ha, Hc.
  - intros o Hin. subst hitters.
    apply in_app_or in Hin. rewrite !colliders_In in Hin.
    destruct Hin as [(_ & Ha & Hc)|(_ & Ha & Hc)]; auto.
  - intro Hmiss.
    assert (hitters = []) as Hnil.
    { subst hitters. unfold colliders. rewrite <- filter_app.
      apply filter_none. intros o Hin.
      destruct (active o) eqn:Ha; [|reflexivity].
      now rewrite (Hmiss o Hin Ha). }
    split.
    + destruct (existsb _ _) eqn:E; [|reflexivity].
      apply existsb_exists in E as (o & Hin & Hc).
      apply andb_true_iff in Hc as [Ha Hc].
      rewrite (Hmiss o Hin Ha) in Hc. discriminate.
    + rewrite Hx, Hnil. simpl. now rewrite app_nil_r.
Qed.

(** C9. In a step run while [gameOver] is false, the two player-collision
    passes leave player, bullets, enemy bullets, enemies, both timestamps
    and the score as the bullet-enemy pass left them; they push one
    explosion centred on the player per active enemy and per active enemy
    bullet overlapping the player, and set [gameOver] when there is one.
    Every such enemy and enemy bullet is still active and is in the lists
    of the resulting state, and the pushed explosions are in the resulting
    state at frame 1. *)
Theorem gameOver_collision_touches_only_flag_and_explosions
        (i : TickInput) (w : World) :
  gameOver (gameState w) = false ->
  let m := fst (afterBulletEnemy i w) in
  let p := player m in
  let g := afterPlayerCollisions i w in
  let w' := updateGame i w in
  let hitters :=
    colliders p (map body (enemies m)) ++ colliders p (enemyBullets m) in
  (player g = p /\ bullets g = bullets m /\
   enemyBullets g = enemyBullets m /\ enemies g = enemies m /\
   lastEnemySpawn g = lastEnemySpawn m /\
   lastBulletFire g = lastBulletFire m /\
   score w' = snd (afterBulletEnemy i w)) /\
  explosions g =
    explosions m ++ repeat (playerExplosion p) (List.length hitters) /\
  playerExplosion p =
    Explosion.mk (x p + width p / 2) (y p + height p / 2) 0 true /\
  explosions (gameState w') =
    filter (fun e => (Explosion.frame e <? 10)%Z)
           (map ageExplosion (explosions m)) ++
    repeat (ageExplosion (playerExplosion p)) (List.length hitters) /\
  (hitters <> [] -> gameOver (gameState w') = true) /\
  (forall e : Enemy,
     In e (enemies m) -> active e = true -> checkCollision e p = true ->
     In e (enemies (gameState w')) /\ gameOver (gameState w') = true) /\
  (forall b : EnemyBullet,
     In b (enemyBullets m) -> active b = true -> checkCollision b p = true ->
     In b (enemyBullets (gameState w')) /\ gameOver (gameState w') = true).
Proof.
  intros Hgo m p g w' hitters.
  destruct (afterPlayerCollisions_frame i w)
    as (F1 & F2 & F3 & F4 & F5 & F6).
  fold m g in F1, F2, F3, F4, F5, F6.
  destruct (afterPlayerCollisions_effect i w) as [Hx _].
  fold m p g hitters in Hx.
  assert (gameOver (gameState w') =
          existsb (fun o => active o && checkCollision o p)
                  (map body (enemies m) ++ enemyBullets m)) as Hover.
  { subst w'. now rewrite (updateGame_gameOver i w Hgo). }
  assert (gameState w' = updateExplosions (pruneInactive g) /\
          score w' = snd (afterBulletEnemy i w)) as [Hw' Hs'].
  { subst w'. unfold updateGame. rewrite Hgo. split; reflexivity. }
  assert (forall o, In o (map body (enemies m) ++ enemyBullets m) ->
                    active o = true -> checkCollision o p = true ->
                    gameOver (gameState w') = true) as Hset.
  { intros o Hin Ha Hc. rewrite Hover. apply existsb_exists.
    exists o. now rewrite Ha, Hc. }
  split; [repeat split; assumption|].
  split; [exact Hx|]. split; [reflexivity|]. split; [|split; [|split]].
  - rewrite Hw'.
    cbn [updateExplosions pruneInactive explosions setExplosions setEnemies
         setEnemyBullets setBullets].
    rewrite Hx, map_app, filter_app. f_equal.
    generalize (List.length hitters). intro n.
    induction n as [|n IH]; simpl; [reflexivity|]. now rewrite IH.
  - intro Hne. destruct hitters as [|o os] eqn:Eh; [contradiction|].
    assert (In o hitters) as Hin by (rewrite Eh; now left).
    subst hitters. apply in_app_or in Hin. rewrite !colliders_In in Hin.
    destruct Hin as [(Hin & Ha & Hc)|(Hin & Ha & Hc)];
      apply (Hset o); auto; apply in_or_app; auto.
  - intros e Hin Ha Hc. split.
    + rewrite Hw'.
      cbn [updateExplosions pruneInactive enemies setExplosions setEnemies
           setEnemyBullets setBullets].
      rewrite F4. apply filter_In. auto.
    + apply (Hset e); auto. apply in_or_app. left. now apply in_map.
  - intros b Hin Ha Hc. split.
    + rewrite Hw'.
      cbn [updateExplosions pruneInactive enemyBullets setExplosions
           setEnemies setEnemyBullets setBullets].
      rewrite F3. apply filter_In. auto.
    + apply (Hset b); auto. apply in_or_app. now right.
Qed.

(** *** Explosions *)

(** C10. In every world the component can be in, each explosion has a
    frame between 1 and 9.  A step run while [gameOver] is false ages the
    explosions it starts with, and the ones pushed during the tick at
    frame 0, by one, and drops those that reach frame 10. *)
Theorem explosion_frames_between_1_and_9 (w : World) :
  reachable w ->
  Forall (fun e => (1 <= Explosion.frame e <= 9)%Z)
         (explosions (gameState w)) /\
  (forall i,
     gameOver (gameState w) = false ->
     exists new,
       Forall (fun e => Explosion.frame e = 0%Z) new /\
       explosions (gameState (updateGame i w)) =
         filter (fun e => (Explosion.frame e <? 10)%Z)
                (map ageExplosion (explosions (gameState w) ++ new))).
Proof.
  intro Hr. split.
  - now destruct (reachable_inv w Hr) as (_ & _ & Hf).
  - intros i Hgo. exact (updateGame_explosions i w Hgo).
Qed.

(** *** Player position *)

(** With a touch target present the position is clamped to the playfield
    at the end of the input phase. *)
Lemma touchMove_in_bounds gs tx ty p :
  width p <= CANVAS_WIDTH -> height p <= CANVAS_HEIGHT ->
  let p' := touchMove gs (Some (tx, ty)) p in
  0 <= x p' /\ x p' <= CANVAS_WIDTH - width p' /\
  0 <= y p' /\ y p' <= CANVAS_HEIGHT - height p'.
Proof.
  intros Hw Hh. unfold touchMove. cbv zeta.
  match goal with
  | |- context [if ?c then ?a else ?b] =>
      assert (width (if c then a else b) = width p /\
              height (if c then a else b) = height p) as [Ew Eh]
        by (destruct c; split; reflexivity);
      generalize dependent (if c then a else b)
  end.
  intros q Ew Eh. cbn [x y width height setX setY]. unfold clampX, clampY.
  cbn [x y width height setX setY]. rewrite Ew, Eh.
  repeat split.
  - apply Q.le_max_l.
  - apply Q.max_lub; [lra | apply Q.le_min_l].
  - apply Q.le_max_l.
  - apply Q.max_lub; [lra | apply Q.le_min_l].
Qed.

Lemma tickAt_valid t ks r : 0 <= r -> r < 1 -> valid_input (tickAt t ks r).
Proof. intros H0 H1 n. split; assumption. Qed.

Lemma reachable_ticks p ks r n :
  0 <= r -> r < 1 -> reachable (run (ticks ks r n) (initialWorld p)).
Proof.
  intros H0 H1. apply reachable_run; [constructor|].
  unfold ticks. apply Forall_forall. intros i Hi.
  apply in_map_iff in Hi as (k & <- & _). now apply tickAt_valid.
Qed.

End Properties.

(** ** The keyboard channel at the right edge *)

(** C2. Evaluation of the step where the claimed bound fails.  After mount
    with the default props (player 32 wide, speed 5, multiplier 1), holding
    ArrowRight for 73 frames puts the player at x = 765, inside the
    playfield.  On the next frame, with ArrowRight still held and no touch
    target, the guard [x < 800 - 32] passes and the player moves to x = 770,
    beyond 800 - 32 = 768; the clamp of the touch block is not run. *)
Theorem keyboard_step_passes_right_edge :
  let w := rightEdgeWorld in
  let w' := @updateGame evalMath rightEdgeTick w in
  gameOver (gameState w) = false /\
  touch rightEdgeTick = None /\
  x (player (gameState w)) == 765 /\
  x (player (gameState w)) <= CANVAS_WIDTH - width (player (gameState w)) /\
  gameOver (gameState w') = false /\
  x (player (gameState w')) == 770 /\
  width (player (gameState w')) == 32 /\
  ~ x (player (gameState w')) <= CANVAS_WIDTH - width (player (gameState w')).
Proof.
  vm_compute. repeat split; try discriminate.
  intro H. apply H. reflexivity.
Qed.

(** ** Evaluations on concrete runs *)

Lemma crashEve_reachable : @reachable evalMath crashEve.
Proof. apply reachable_ticks; [discriminate | reflexivity]. Qed.

Lemma hitEve_reachable : @reachable evalMath hitEve.
Proof. apply reachable_ticks; [discriminate | reflexivity]. Qed.

Lemma updateGame_gameOver_noop_witness :
  gameOver (gameState crashed) = true /\
  @updateGame evalMath crashTick crashed = crashed.
Proof.
  split; [vm_compute; reflexivity|].
  apply (@updateGame_gameOver_noop evalMath crashTick crashed).
  vm_compute. reflexivity.
Defined.

Lemma autoFire_gate_witness :
  gameOver (gameState firstFrame) = false /\
  lastBulletFire (gameState (@updateGame evalMath tick200 firstFrame)) =
    lastBulletFire (gameState firstFrame).
Proof.
  split; [vm_compute; reflexivity|].
  apply (@autoFire_gate evalMath tick200 firstFrame);
    vm_compute; [reflexivity | discriminate].
Defined.

(** C6, as stated, fails when exactly 200 ms have passed: the frame is run
    with [gameOver] false, the elapsed time is at least 200 ms, and yet no
    bullet is appended and the fire timestamp is not the current time. *)
Lemma autoFire_at_200ms_counterexample :
  let w := firstFrame in
  let g1 := @movePlayer evalMath (gameSpeed (props w)) tick200 (gameState w) in
  gameOver (gameState w) = false /\
  (now tick200 - lastBulletFire (gameState w) >= 200)%Z /\
  bullets (autoFire tick200 g1) = bullets (gameState w) /\
  lastBulletFire (gameState (@updateGame evalMath tick200 w)) <> now tick200.
Proof.
  vm_compute. repeat split; discriminate.
Qed.

Lemma score_never_decreases_witness :
  let m := @beforeCollisions evalMath (props hitEve) hitTick
             (gameState hitEve) in
  let b := nth 0 (bullets m) (player m) in
  let e := nth 0 (enemies m) (mkEnemy (player m) 0) in
  @reachable evalMath hitEve /\
  (In b (bullets m) /\ In e (enemies m) /\ active b = true /\
   active e = true /\ checkCollision b e = true) /\
  (score hitEve + 10 <= score (@updateGame evalMath hitTick hitEve))%Z /\
  score (@updateGame evalMath hitTick hitEve) =
    (score hitEve +
     sumPoints
       (destroyed (enemies m)
          (enemies (fst (@afterBulletEnemy evalMath hitTick hitEve)))))%Z.
Proof.
  intros m b e.
  assert (@valid_input hitTick) as Hv
      by (apply tickAt_valid; [discriminate | reflexivity]).
  assert (gameOver (gameState hitEve) = false) as Hgo
      by (vm_compute; reflexivity).
  assert (In b (bullets m)) as Hb by (vm_compute; left; reflexivity).
  assert (In e (enemies m)) as He by (vm_compute; left; reflexivity).
  assert (active b = true) as Ab by (vm_compute; reflexivity).
  assert (active e = true) as Ae by (vm_compute; reflexivity).
  assert (checkCollision b e = true) as Hcol by (vm_compute; reflexivity).
  pose proof (proj2 (@score_never_decreases evalMath hitEve hitEve_reachable)
                    hitTick Hv) as H.
  cbv zeta in H. destruct H as (_ & H).
  destruct (H Hgo) as (Hs & _ & _ & _ & Hpair & _).
  split; [exact hitEve_reachable|].
  split; [exact (conj Hb (conj He (conj Ab (conj Ae Hcol))))|].
  split; [exact (proj2 (Hpair b e Hb He Ab Ae Hcol))|exact Hs].
Defined.

Lemma bullet_scores_at_most_once_witness :
  let b := mkGameObject 100 12 4 12 8 true in
  gameOver (gameState overlapWorld) = false /\
  bullets (@beforeCollisions evalMath (props overlapWorld) overlapTick
             (gameState overlapWorld)) = [] ++ b :: [] /\
  score (@updateGame evalMath overlapTick overlapWorld) = 20%Z.
Proof.
  intro b.
  assert (gameOver (gameState overlapWorld) = false) as Hgo
      by (vm_compute; reflexivity).
  assert (bullets (@beforeCollisions evalMath (props overlapWorld) overlapTick
                     (gameState overlapWorld)) = [] ++ b :: []) as Hb
      by (vm_compute; reflexivity).
  split; [exact Hgo|]. split; [exact Hb|].
  pose proof (@bullet_scores_at_most_once evalMath overlapTick overlapWorld
                [] b [] Hgo Hb) as H.
  vm_compute in H. destruct H as (_ & H & _).
  vm_compute. exact H.
Defined.

Lemma player_collision_counts_only_alive_witness :
  @reachable evalMath crashEve /\
  gameOver (gameState crashEve) = false /\
  forall o, In o (colliders
                    (player (fst (@afterBulletEnemy evalMath crashTick crashEve)))
                    (map body (enemies
                       (fst (@afterBulletEnemy evalMath crashTick crashEve)))) ++
                  colliders
                    (player (fst (@afterBulletEnemy evalMath crashTick crashEve)))
                    (enemyBullets
                       (fst (@afterBulletEnemy evalMath crashTick crashEve)))) ->
            active o = true /\
            active (player (fst (@afterBulletEnemy evalMath crashTick crashEve)))
              = true /\
            checkCollision o
              (player (fst (@afterBulletEnemy evalMath crashTick crashEve)))
              = true.
Proof.
  assert (gameOver (gameState crashEve) = false) as Hgo
      by (vm_compute; reflexivity).
  split; [exact crashEve_reachable|]. split; [exact Hgo|].
  pose proof (@player_collision_counts_only_alive evalMath crashTick crashEve
                crashEve_reachable Hgo) as H.
  cbv zeta in H. destruct H as (_ & _ & H & _). exact H.
Defined.

Lemma gameOver_collision_touches_only_flag_and_explosions_witness :
  gameOver (gameState crashEve) = false /\
  score (@updateGame evalMath crashTick crashEve) =
    snd (@afterBulletEnemy evalMath crashTick crashEve).
Proof.
  assert (gameOver (gameState crashEve) = false) as Hgo
      by (vm_compute; reflexivity).
  split; [exact Hgo|].
  pose proof (@gameOver_collision_touches_only_flag_and_explosions evalMath
                crashTick crashEve Hgo) as H.
  cbv zeta in H. destruct H as ((_ & _ & _ & _ & _ & _ & H) & _). exact H.
Defined.

Lemma explosion_frames_between_1_and_9_witness :
  @reachable evalMath crashed /\
  Forall (fun e => (1 <= Explosion.frame e <= 9)%Z)
         (explosions (gameState crashed)).
Proof.
  assert (@reachable evalMath crashed) as Hr.
  { apply reach_tick; [exact crashEve_reachable|].
    apply tickAt_valid; [discriminate | reflexivity]. }
  split; [exact Hr|].
  exact (proj1 (@explosion_frames_between_1_and_9 evalMath crashed Hr)).
Defined.

(** What the concrete runs look like: the crash frame ends the game with one
    explosion at frame 1 and the colliding enemy still listed; the hit frame
    scores 20 once; the overlapping bullet destroys only the first enemy. *)
Example crash_frame :
  gameOver (gameState crashed) = true /\
  map Explosion.frame (explosions (gameState crashed)) = [1%Z] /\
  map (fun e : Enemy => active e) (enemies (gameState crashed)) =
    [true; true; true].
Proof. vm_compute. repeat split. Qed.

Example hit_frame :
  score hitEve = 0%Z /\
  score (@updateGame evalMath hitTick hitEve) = 20%Z.
Proof. vm_compute. split; reflexivity. Qed.

Example overlap_frame :
  let w' := @updateGame evalMath overlapTick overlapWorld in
  score w' = 20%Z /\ bullets (gameState w') = [] /\
  map type (enemies (gameState w')) = [0%Z] /\
  List.length (explosions (gameState w')) = 1%nat.
Proof. vm_compute. repeat split. Qed.

Example touch_frame :
  let p := player (gameState (@updateGame evalMath touchTick mounted)) in
  x p == 403 /\ y p == 504.
Proof. vm_compute. split; reflexivity. Qed.

(** ** Further properties of the simulation *)

Section MoreProperties.
Context {M : MathLib}.

Ltac split_conj := repeat match goal with |- _ /\ _ => split end.

Ltac any_if :=
  repeat match goal with
  | |- context [if ?c then _ else _] => destruct c
  end.

(** X1. The collision test does not depend on the order of its two
    arguments. *)
Theorem checkCollision_sym (a b : GameObject) :
  checkCollision a b = checkCollision b a.
Proof.
  unfold checkCollision, Qgt_bool.
  destruct (Qlt_bool (x a) (x b + width b)), (Qlt_bool (x b) (x a + width a)),
    (Qlt_bool (y a) (y b + height b)), (Qlt_bool (y b) (y a + height a));
    reflexivity.
Qed.

(** X3. With an enemy size in (0, 800] and [Math.random()] results in
    [0, 1), a spawned enemy has its x between 0 and [800 - size], sits just
    above the top border ([y = - size]), is a square of the configured
    size, has a speed between 2 and 5 and a type 0 or 1, and is active. *)
Theorem spawnEnemy_in_range (size r0 r1 r2 : Q) :
  0 < size -> size <= CANVAS_WIDTH ->
  0 <= r0 < 1 -> 0 <= r1 < 1 -> 0 <= r2 < 1 ->
  let e := spawnEnemy size r0 r1 r2 in
  0 <= x e /\ x e <= CANVAS_WIDTH - size /\
  y e = - size /\ y e < 0 /\
  width e = size /\ height e = size /\
  2 <= speed e /\ speed e <= 5 /\
  (type e = 0%Z \/ type e = 1%Z) /\ active e = true.
Proof.
  intros Hs Hw [H0 H0'] [H1 H1'] [H2 H2'] e. subst e.
  cbn [spawnEnemy x y width height speed active type body].
  unfold CANVAS_WIDTH in *.
  repeat match goal with |- _ /\ _ => split end;
    try nra; try reflexivity.
  now apply floor_of_random.
Qed.

(** X5. An enemy bullet is active, 4 x 8 with speed 4, and starts on the
    bottom edge of its enemy, so the collision test between the bullet and
    the enemy that fires it is false in either order. *)
Theorem fireEnemyBullet_below_enemy (e : Enemy) :
  let b := fireEnemyBullet e in
  active b = true /\ y b = y e + height e /\
  width b = 4 /\ height b = 8 /\ speed b = 4 /\
  checkCollision b e = false /\ checkCollision e b = false.
Proof.
  cbv zeta.
  assert (Qlt_bool (y e + height e) (y e + height e) = false) as E.
  { unfold Qlt_bool. apply negb_false_iff. apply Qle_bool_iff. lra. }
  split_conj; try reflexivity.
  - unfold checkCollision. cbn [fireEnemyBullet x y width height].
    rewrite E. now rewrite andb_false_r.
  - unfold checkCollision, Qgt_bool. cbn [fireEnemyBullet x y width height].
    rewrite E. now rewrite andb_false_r.
Qed.

Lemma keyboardMove_fields gs ks p :
  width (keyboardMove gs ks p) = width p /\
  height (keyboardMove gs ks p) = height p /\
  speed (keyboardMove gs ks p) = speed p.
Proof. unfold keyboardMove. cbv zeta. any_if; split_conj; reflexivity. Qed.

Lemma keyboardMove_x gs ks p :
  x (keyboardMove gs ks p) =
  let x1 := if has ks "ArrowLeft" && Qgt_bool (x p) 0
            then x p - speed p * gs else x p in
  if has ks "ArrowRight" && Qlt_bool x1 (CANVAS_WIDTH - width p)
  then x1 + speed p * gs else x1.
Proof.
  unfold keyboardMove. cbv zeta.
  destruct (has ks "ArrowLeft" && Qgt_bool (x p) 0);
    cbn [x y width height speed setX setY];
    match goal with
    | |- context [has ks "ArrowRight" && ?c] =>
        destruct (has ks "ArrowRight" && c)
    end; any_if; reflexivity.
Qed.

Lemma keyboardMove_y gs ks p :
  y (keyboardMove gs ks p) =
  let y1 := if has ks "ArrowUp" && Qgt_bool (y p) 0
            then y p - speed p * gs else y p in
  if has ks "ArrowDown" && Qlt_bool y1 (CANVAS_HEIGHT - height p)
  then y1 + speed p * gs else y1.
Proof.
  unfold keyboardMove. cbv zeta.
  destruct (has ks "ArrowLeft" && Qgt_bool (x p) 0);
    cbn [x y width height speed setX setY];
    match goal with
    | |- context [has ks "ArrowRight" && ?c] =>
        destruct (has ks "ArrowRight" && c)
    end;
    cbn [x y width height speed setX setY];
    destruct (has ks "ArrowUp" && Qgt_bool (y p) 0);
    cbn [x y width height speed setX setY];
    any_if; reflexivity.
Qed.

(** X6. With ArrowLeft and ArrowRight both held, the left move is made
    first and the right guard is tested on the moved position: a player
    strictly right of the left border, whom one step left leaves left of the
    right limit, is moved one step left and then one step right (its old x,
    up to the rounding of the two operations); a player at or left of the
    left border, and left of the right limit, is only moved one step to the
    right. *)
Theorem opposing_keys_both_apply gs ks p :
  has ks "ArrowLeft" = true -> has ks "ArrowRight" = true ->
  (0 < x p -> x p - speed p * gs < CANVAS_WIDTH - width p ->
   x (keyboardMove gs ks p) = x p - speed p * gs + speed p * gs) /\
  (x p <= 0 -> x p < CANVAS_WIDTH - width p ->
   x (keyboardMove gs ks p) = x p + speed p * gs).
Proof.
  intros HL HR. rewrite keyboardMove_x, HL, HR. cbv zeta. cbn [andb]. split.
  - intros H0 HB. apply Qgt_bool_iff in H0. rewrite H0.
    apply Qlt_bool_iff in HB. now rewrite HB.
  - intros H0 HB.
    assert (Qgt_bool (x p) 0 = false) as E.
    { destruct (Qgt_bool (x p) 0) eqn:E; [|reflexivity].
      apply Qgt_bool_iff in E. lra. }
    rewrite E. apply Qlt_bool_iff in HB. now rewrite HB.
Qed.

Lemma keyboardMove_near gs ks p :
  0 <= speed p * gs -> nearPlayfield gs p ->
  nearPlayfield gs (keyboardMove gs ks p).
Proof.
  unfold nearPlayfield. cbv zeta. intros Hs (X0 & X1 & Y0 & Y1).
  destruct (keyboardMove_fields gs ks p) as (-> & -> & ->).
  rewrite keyboardMove_x, keyboardMove_y. cbv zeta.
  assert (forall (a : bool) (c : bool) (u v : Q),
            (if a && c then u else v) = u /\ c = true \/
            (if a && c then u else v) = v) as pick.
  { intros [] [] u v; cbn; auto. }
  destruct (pick (has ks "ArrowLeft") (Qgt_bool (x p) 0)
              (x p - speed p * gs) (x p)) as [[-> E1]| ->];
    [apply Qgt_bool_iff in E1|];
    (destruct (pick (has ks "ArrowUp") (Qgt_bool (y p) 0)
                (y p - speed p * gs) (y p)) as [[-> E2]| ->];
     [apply Qgt_bool_iff in E2|]);
    match goal with
    | |- context [if has ks "ArrowRight" && Qlt_bool ?u ?v then ?a else ?b] =>
        destruct (pick (has ks "ArrowRight") (Qlt_bool u v) a b)
          as [[-> E3]| ->]; [apply Qlt_bool_iff in E3|]
    end;
    match goal with
    | |- context [if has ks "ArrowDown" && Qlt_bool ?u ?v then ?a else ?b] =>
        destruct (pick (has ks "ArrowDown") (Qlt_bool u v) a b)
          as [[-> E4]| ->]; [apply Qlt_bool_iff in E4|]
    end;
    split_conj; lra.
Qed.
Lemma touchMove_fields gs t p :
  width (touchMove gs t p) = width p /\
  height (touchMove gs t p) = height p /\
  speed (touchMove gs t p) = speed p.
Proof.
  unfold touchMove. destruct t as [[tx ty]|]; [|split_conj; reflexivity].
  cbv zeta. any_if; split_conj; reflexivity.
Qed.

Lemma inPlayfield_near gs p :
  0 <= speed p * gs -> inPlayfield p -> nearPlayfield gs p.
Proof.
  unfold inPlayfield, nearPlayfield. cbv zeta.
  intros Hs (A & B & C & D). split_conj; lra.
Qed.

Lemma movePlayer_near gs i p :
  0 <= speed p * gs -> width p <= CANVAS_WIDTH -> height p <= CANVAS_HEIGHT ->
  nearPlayfield gs p ->
  nearPlayfield gs (touchMove gs (touch i) (keyboardMove gs (keys i) p)).
Proof.
  intros Hs Hw Hh Hn.
  pose proof (keyboardMove_near gs (keys i) p Hs Hn) as Hk.
  destruct (keyboardMove_fields gs (keys i) p) as (Ew & Eh & Es).
  destruct (touch i) as [[tx ty]|]; [|exact Hk].
  apply inPlayfield_near.
  - destruct (touchMove_fields gs (Some (tx, ty)) (keyboardMove gs (keys i) p))
      as (_ & _ & ->). now rewrite Es.
  - apply (touchMove_in_bounds gs tx ty (keyboardMove gs (keys i) p));
      congruence.
Qed.

Lemma updateGame_props i w : props (updateGame i w) = props w.
Proof. unfold updateGame. now destruct (gameOver (gameState w)). Qed.

(** X7. For a non-negative step and a player no larger than the playfield,
    a player that is at most one keyboard step outside the playfield stays
    so over any run of simulation steps, whatever the keys and the touch
    target. *)
Theorem player_stays_near_playfield (ins : list TickInput) (w : World) :
  let gs := gameSpeed (props w) in
  let p := player (gameState w) in
  0 <= speed p * gs -> width p <= CANVAS_WIDTH -> height p <= CANVAS_HEIGHT ->
  nearPlayfield gs p ->
  nearPlayfield gs (player (gameState (run ins w))).
Proof.
  cbv zeta. revert w. induction ins as [|i ins IH]; intros w Hs Hw Hh Hn.
  - exact Hn.
  - simpl. rewrite <- (updateGame_props i w).
    assert (player (gameState (updateGame i w)) = player (gameState w) \/
            player (gameState (updateGame i w)) =
              touchMove (gameSpeed (props w)) (touch i)
                (keyboardMove (gameSpeed (props w)) (keys i)
                              (player (gameState w)))) as [E|E].
    { destruct (gameOver (gameState w)) eqn:Hgo.
      - left. now rewrite frozen_when_over.
      - right. now apply updateGame_player. }
    + apply IH; rewrite ?updateGame_props, E; assumption.
    + destruct (keyboardMove_fields (gameSpeed (props w)) (keys i)
                  (player (gameState w))) as (Ew & Eh & Es).
      destruct (touchMove_fields (gameSpeed (props w)) (touch i)
                  (keyboardMove (gameSpeed (props w)) (keys i)
                                (player (gameState w)))) as (Ew' & Eh' & Es').
      apply IH; rewrite ?updateGame_props, E.
      * now rewrite Es', Es.
      * now rewrite Ew', Ew.
      * now rewrite Eh', Eh.
      * now apply movePlayer_near.
Qed.

(** X8. In a step run while [gameOver] is false, with no arrow key held and
    no touch target, the player record of the next state is the one of the
    previous state. *)
Theorem idle_frame_keeps_player (i : TickInput) (w : World) :
  gameOver (gameState w) = false ->
  (forall k, In k arrowKeys -> has (keys i) k = false) ->
  touch i = None ->
  player (gameState (updateGame i w)) = player (gameState w).
Proof.
  intros Hgo Hk Ht. rewrite updateGame_player by exact Hgo. rewrite Ht.
  unfold touchMove, keyboardMove.
  rewrite !Hk by (unfold arrowKeys; simpl; auto). reflexivity.
Qed.

(** X9. A touch target within 5 units of the point that centres the player
    on it does not move a player that is inside the playfield. *)
Theorem touch_dead_zone gs tx ty p :
  let dx := tx - width p / 2 - x p in
  let dy := ty - height p / 2 - y p in
  Math_sqrt (dx * dx + dy * dy) <= 5 ->
  inPlayfield p ->
  let p' := touchMove gs (Some (tx, ty)) p in
  x p' == x p /\ y p' == y p.
Proof.
  intros dx dy Hd (X0 & X1 & Y0 & Y1). unfold touchMove. cbv zeta.
  fold dx dy.
  assert (Qgt_bool (Math_sqrt (dx * dx + dy * dy)) 5 = false) as E.
  { destruct (Qgt_bool _ 5) eqn:E; [|reflexivity].
    apply Qgt_bool_iff in E. lra. }
  rewrite E. cbn [x y width height setX setY]. unfold clampX, clampY.
  cbn [x y width height setX setY]. split.
  - rewrite Q.max_r; [apply Q.min_r; exact X1|].
    rewrite Q.min_r; assumption.
  - rewrite Q.max_r; [apply Q.min_r; exact Y1|].
    rewrite Q.min_r; assumption.
Qed.

(** X10. With a touch target more than 5 units away, a non-negative speed
    and multiplier and a player inside the playfield, the touch block never
    moves the player away from the target: on each axis the player stays or
    moves towards the side the target is on. *)
Theorem touch_moves_toward_target gs tx ty p :
  let dx := tx - width p / 2 - x p in
  let dy := ty - height p / 2 - y p in
  5 < Math_sqrt (dx * dx + dy * dy) ->
  0 <= speed p -> 0 <= gs -> inPlayfield p ->
  let p' := touchMove gs (Some (tx, ty)) p in
  (0 <= dx -> x p <= x p') /\ (dx <= 0 -> x p' <= x p) /\
  (0 <= dy -> y p <= y p') /\ (dy <= 0 -> y p' <= y p).
Proof.
  intros dx dy H5 Hs Hg (X0 & X1 & Y0 & Y1) p'. subst p'.
  unfold touchMove. cbv zeta. fold dx dy.
  set (d := Math_sqrt (dx * dx + dy * dy)) in *.
  assert (Qgt_bool d 5 = true) as E by now apply Qgt_bool_iff.
  rewrite E. cbn [x y width height speed setX setY]. unfold clampX, clampY.
  cbn [x y width height speed setX setY].
  assert (0 < d) as Hd by lra.
  assert (0 <= speed p * gs) as Hsg by now apply Qmult_le_0_compat.
  assert (forall u, 0 <= u -> 0 <= u / d * speed p * gs) as Hpos.
  { intros u Hu. rewrite <- Qmult_assoc.
    apply Qmult_le_0_compat; [|exact Hsg].
    apply Qle_shift_div_l; [exact Hd|lra]. }
  assert (forall u, u <= 0 -> u / d * speed p * gs <= 0) as Hneg.
  { intros u Hu. rewrite <- Qmult_assoc.
    assert (u / d <= 0) as Hq by (apply Qle_shift_div_r; [exact Hd|lra]).
    nra. }
  split_conj.
  - intro H. specialize (Hpos dx H).
    apply Qle_trans with (Qmin (CANVAS_WIDTH - width p)
                               (x p + dx / d * speed p * gs));
      [apply Q.min_glb; lra | apply Q.le_max_r].
  - intro H. specialize (Hneg dx H).
    apply Q.max_lub; [exact X0|].
    eapply Qle_trans; [apply Q.le_min_r|]. lra.
  - intro H. specialize (Hpos dy H).
    apply Qle_trans with (Qmin (CANVAS_HEIGHT - height p)
                               (y p + dy / d * speed p * gs));
      [apply Q.min_glb; lra | apply Q.le_max_r].
  - intro H. specialize (Hneg dy H).
    apply Q.max_lub; [exact Y0|].
    eapply Qle_trans; [apply Q.le_min_r|]. lra.
Qed.

Lemma bulletsVsEnemies_bullets bs es ex sc :
  Forall2 spent bs (fst (fst (fst (bulletsVsEnemies bs es ex sc)))).
Proof.
  revert es ex sc. induction bs as [|b bs IH]; intros es ex sc; simpl.
  - constructor.
  - destruct (bulletVsEnemies b es ex sc) as [[[b1 es1] ex1] sc1] eqn:E1.
    specialize (IH es1 ex1 sc1).
    destruct (bulletsVsEnemies bs es1 ex1 sc1) as [[[bs2 es2] ex2] sc2].
    simpl in *. constructor; [|exact IH].
    destruct (bulletVsEnemies_cases b es ex sc)
      as [[_ E]|(l & e & r & _ & E)]; rewrite E in E1; inversion E1;
      [left|right]; reflexivity.
Qed.

Lemma Forall2_carry {A} (R : A -> A -> Prop) (P : A -> Prop) l l' :
  (forall a b, R a b -> P a -> P b) ->
  Forall2 R l l' -> Forall P l -> Forall P l'.
Proof.
  intros HR H. induction H as [|a b l l' Hab _ IH]; intro HP;
    inversion HP; subst; constructor; eauto.
Qed.

Lemma Forall_filter_keep {A} (f : A -> bool) (P : A -> Prop) l :
  Forall P l -> Forall P (filter f l).
Proof. intro H. apply (incl_Forall (incl_filter f l) H). Qed.

Lemma Forall_filter_true {A} (f : A -> bool) l :
  Forall (fun a => f a = true) (filter f l).
Proof. apply Forall_forall. intros a Ha. now apply filter_In in Ha. Qed.

Lemma updateGame_bullets i w :
  gameOver (gameState w) = false ->
  bullets (gameState (updateGame i w)) =
  filter active (bullets (fst (afterBulletEnemy i w))).
Proof.
  intro Hgo. unfold updateGame. rewrite Hgo.
  cbn [gameState updateExplosions pruneInactive bullets setExplosions
       setEnemies setEnemyBullets setBullets].
  destruct (afterPlayerCollisions_frame i w) as (_ & -> & _).
  reflexivity.
Qed.

Lemma updateGame_enemyBullets i w :
  gameOver (gameState w) = false ->
  enemyBullets (gameState (updateGame i w)) =
  filter active
    (enemyBullets (beforeCollisions (props w) i (gameState w))).
Proof.
  intro Hgo. unfold updateGame. rewrite Hgo.
  cbn [gameState updateExplosions pruneInactive enemyBullets setExplosions
       setEnemies setEnemyBullets setBullets].
  destruct (afterPlayerCollisions_frame i w) as (_ & _ & -> & _).
  unfold afterBulletEnemy.
  destruct (bulletEnemyCollisions_frame
              (beforeCollisions (props w) i (gameState w)) (score w))
    as (_ & -> & _).
  reflexivity.
Qed.

Lemma afterBulletEnemy_bullets i w :
  Forall2 spent (bullets (beforeCollisions (props w) i (gameState w)))
          (bullets (fst (afterBulletEnemy i w))).
Proof.
  unfold afterBulletEnemy, bulletEnemyCollisions.
  set (m := beforeCollisions (props w) i (gameState w)).
  pose proof (bulletsVsEnemies_bullets (bullets m) (enemies m) (explosions m)
                (score w)) as H.
  destruct (bulletsVsEnemies (bullets m) (enemies m) (explosions m) (score w))
    as [[[bs es] ex] sc]. exact H.
Qed.

Lemma beforeCollisions_enemiesLoop p i g :
  let r := enemiesLoop (gameSpeed p) (random i)
             (if spawns i g then 3 else 0)%nat
             (enemiesIn p i g) (enemyBulletsIn p g) in
  enemies (beforeCollisions p i g) = fst r /\
  enemyBullets (beforeCollisions p i g) = snd r /\
  lastEnemySpawn (beforeCollisions p i g) =
    (if spawns i g then now i else lastEnemySpawn g).
Proof.
  unfold beforeCollisions, updateEnemies, spawnPhase, updateEnemyBullets,
    updateBullets, autoFire, enemiesIn, enemyBulletsIn, spawns, movePlayer.
  cbv zeta.
  destruct (now i - lastBulletFire _ >? 200)%Z;
    cbn [lastEnemySpawn enemies enemyBullets setLastBulletFire setBullets
         setEnemyBullets setEnemies setPlayer setLastEnemySpawn];
    destruct (now i - lastEnemySpawn g >? 1000)%Z;
    cbn [lastEnemySpawn enemies enemyBullets setLastBulletFire setBullets
         setEnemyBullets setEnemies setPlayer setLastEnemySpawn];
    match goal with
    | |- context [enemiesLoop ?a ?b ?c ?d ?e] =>
        destruct (enemiesLoop a b c d e)
    end; split_conj; reflexivity.
Qed.

Lemma enemiesLoop_kept gs rnd k es ebs :
  Forall (fun e' : Enemy =>
            keepBelow e' = true /\
            exists e, In e es /\ e' = onBody (moveDown gs) e)
         (fst (enemiesLoop gs rnd k es ebs)).
Proof.
  revert k ebs. induction es as [|e es IH]; intros k ebs; simpl.
  - constructor.
  - match goal with
    | |- context [enemiesLoop ?a ?b ?c ?d ?f] =>
        specialize (IH c f); destruct (enemiesLoop a b c d f) as [rest' ebs'']
    end.
    simpl in IH.
    assert (Forall (fun e' : Enemy =>
              keepBelow e' = true /\
              exists e0, In e0 (e :: es) /\ e' = onBody (moveDown gs) e0)
              rest') as IH'.
    { eapply Forall_impl; [|exact IH]. intros a (Ha & e0 & Hin & ->).
      split; [exact Ha|]. exists e0. split; [now right|reflexivity]. }
    cbn [fst].
    match goal with
    | |- context [if keepBelow ?a then _ else _] =>
        destruct (keepBelow a) eqn:Ek; [|exact IH']
    end.
    constructor; [|exact IH'].
    split; [exact Ek|]. exists e. split; [now left|reflexivity].
Qed.

Lemma enemiesLoop_fired gs rnd k es ebs :
  exists new,
    snd (enemiesLoop gs rnd k es ebs) = ebs ++ new /\
    (List.length new <= List.length es)%nat /\
    Forall (fun b => exists e, In e es /\
                               b = fireEnemyBullet (onBody (moveDown gs) e))
           new.
Proof.
  revert k ebs. induction es as [|e es IH]; intros k ebs; simpl.
  - exists []. rewrite app_nil_r. split_conj; auto.
  - match goal with
    | |- context [enemiesLoop ?a ?b ?c ?d ?f] =>
        specialize (IH c f); destruct (enemiesLoop a b c d f) as [rest' ebs'']
    end.
    destruct IH as (new & E & L & F). simpl in E. cbn [snd].
    assert (Forall (fun b => exists e0, In e0 (e :: es) /\
                       b = fireEnemyBullet (onBody (moveDown gs) e0)) new)
      as F'.
    { eapply Forall_impl; [|exact F]. intros a (e0 & Hin & ->).
      exists e0. split; [now right|reflexivity]. }
    destruct (Qlt_bool (rnd k) (0.005 * gs)).
    + exists (fireEnemyBullet (onBody (moveDown gs) e) :: new).
      split; [rewrite E, <- app_assoc; reflexivity|].
      split; [simpl; lia|].
      constructor; [|exact F']. exists e. split; [now left|reflexivity].
    + exists new. split; [exact E|]. split; [simpl; lia|exact F'].
Qed.

Lemma enemiesLoop_length gs rnd k es ebs :
  (List.length (fst (enemiesLoop gs rnd k es ebs)) <= List.length es)%nat.
Proof.
  revert k ebs. induction es as [|e es IH]; intros k ebs; simpl; [lia|].
  match goal with
  | |- context [enemiesLoop ?a ?b ?c ?d ?f] =>
      specialize (IH c f); destruct (enemiesLoop a b c d f) as [rest' ebs'']
  end.
  simpl in *. destruct (keepBelow _); simpl; lia.
Qed.

Lemma Forall_both {A} (P Q : A -> Prop) l :
  Forall P l -> Forall Q l -> Forall (fun a => P a /\ Q a) l.
Proof.
  intros HP HQ. rewrite Forall_forall in *. intros a Ha. split; auto.
Qed.

Lemma step_bullets i w :
  gameOver (gameState w) = false ->
  Forall bulletOk (bullets (gameState w)) ->
  Forall bulletOk (bullets (gameState (updateGame i w))).
Proof.
  intros Hgo Hb. rewrite (updateGame_bullets i w Hgo).
  apply Forall_both; [apply Forall_filter_true|]. apply Forall_filter_keep.
  apply (Forall2_carry spent (fun b => bulletShape b /\ - height b < y b)
           (bullets (beforeCollisions (props w) i (gameState w))));
    [intros a b [->| ->] H; exact H | apply afterBulletEnemy_bullets |].
  rewrite beforeCollisions_bullets.
  apply Forall_both.
  - apply Forall_filter_keep. apply Forall_forall. intros b Hin.
    apply in_map_iff in Hin as (b0 & <- & Hin).
    assert (bulletShape b0) as Hs; [|exact Hs].
    unfold autoFire in Hin. cbn [movePlayer bullets setPlayer] in Hin.
    rewrite Forall_forall in Hb.
    destruct (now i - lastBulletFire _ >? 200)%Z.
    + cbn [bullets setBullets setLastBulletFire setPlayer] in Hin.
      apply in_app_or in Hin as [Hin|[<-|[]]].
      * now destruct (Hb _ Hin) as (_ & Hs & _).
      * repeat split.
    + cbn [bullets setPlayer] in Hin. now destruct (Hb _ Hin) as (_ & Hs & _).
  - eapply Forall_impl; [|apply Forall_filter_true].
    intros b Hk. unfold keepBullet in Hk.
    apply andb_true_iff in Hk as [Hk _]. now apply Qgt_bool_iff in Hk.
Qed.

Lemma step_enemyBullets i w :
  gameOver (gameState w) = false ->
  Forall enemyBulletOk (enemyBullets (gameState w)) ->
  Forall enemyBulletOk (enemyBullets (gameState (updateGame i w))).
Proof.
  intros Hgo Hb. rewrite (updateGame_enemyBullets i w Hgo).
  apply Forall_both; [apply Forall_filter_true|]. apply Forall_filter_keep.
  destruct (beforeCollisions_enemiesLoop (props w) i (gameState w))
    as (_ & -> & _).
  destruct (enemiesLoop_fired (gameSpeed (props w)) (random i)
              (if spawns i (gameState w) then 3 else 0)%nat
              (enemiesIn (props w) i (gameState w))
              (enemyBulletsIn (props w) (gameState w)))
    as (new & -> & _ & Hn).
  apply Forall_app. split.
  - unfold enemyBulletsIn. apply Forall_filter_keep. apply Forall_forall.
    intros b Hin. apply in_map_iff in Hin as (b0 & <- & Hin).
    rewrite Forall_forall in Hb. now destruct (Hb _ Hin) as (_ & Hs).
  - eapply Forall_impl; [|exact Hn]. intros b (e & _ & ->). repeat split.
Qed.

Lemma step_enemies i w :
  gameOver (gameState w) = false -> valid_input i ->
  Forall enemyOk (enemies (gameState w)) ->
  Forall enemyOk (enemies (gameState (updateGame i w))).
Proof.
  intros Hgo Hv He. rewrite (updateGame_enemies i w Hgo).
  apply Forall_both; [apply (Forall_filter_true (fun e : Enemy => active e))|].
  apply Forall_filter_keep.
  destruct (afterBulletEnemy_facts i w) as (D & _).
  apply (Forall2_carry
           (fun e e' : Enemy =>
              e' = e \/ (active e = true /\ e' = deactivate e))
           (fun e : Enemy =>
              2 <= speed e /\ speed e <= 5 /\ width e = height e /\
              y e < CANVAS_HEIGHT + height e)
           (enemies (beforeCollisions (props w) i (gameState w))));
    [intros a b [->|[_ ->]] H; exact H | exact D |].
  destruct (beforeCollisions_enemiesLoop (props w) i (gameState w))
    as (-> & _).
  eapply Forall_impl; [|apply enemiesLoop_kept].
  intros e' (Hk & e & Hin & ->).
  unfold keepBelow in Hk. apply andb_true_iff in Hk as [Hk _].
  apply Qlt_bool_iff in Hk.
  cbn [onBody body moveDown setY x y width height speed] in *.
  assert (2 <= speed e /\ speed e <= 5 /\ width e = height e)
    as (S1 & S2 & S3).
  { unfold enemiesIn in Hin. rewrite Forall_forall in He.
    destruct (spawns i (gameState w)).
    - apply in_app_or in Hin as [Hin|[<-|[]]].
      + destruct (He _ Hin) as (_ & S1 & S2 & S3 & _). auto.
      + cbn [spawnEnemy body speed width height].
        destruct (Hv 1%nat) as [R0 R1]. split_conj; [lra|lra|reflexivity].
    - destruct (He _ Hin) as (_ & S1 & S2 & S3 & _). auto. }
  split_conj; assumption.
Qed.

Lemma sumPoints_div es : (10 | sumPoints es)%Z.
Proof.
  induction es as [|e es IH]; simpl.
  - apply Z.divide_0_r.
  - apply Z.divide_add_r; [|exact IH]. unfold points.
    apply Z.divide_mul_r, Z.divide_refl.
Qed.

Lemma reachable_more w :
  reachable w -> entitiesOk w /\ playerOk w /\ scoreOk w.
Proof.
  induction 1 as [p | i w Hr IH Hv | w _ IH | p w _ IH].
  - split; [repeat split; constructor|]. split; [repeat split|].
    split; [reflexivity|apply Z.divide_0_r].
  - destruct IH as ((Hb & Heb & He) & (P1 & P2 & P3) & (S1 & S2)).
    destruct (gameOver (gameState w)) eqn:Hgo.
    { rewrite frozen_when_over by exact Hgo. repeat split; assumption. }
    split; [|split].
    + split; [now apply step_bullets|].
      split; [now apply step_enemyBullets|now apply step_enemies].
    + unfold playerOk. rewrite updateGame_player by exact Hgo.
      unfold updateGame. rewrite Hgo. cbn [props].
      destruct (keyboardMove_fields (gameSpeed (props w)) (keys i)
                  (player (gameState w))) as (Ew & Eh & Es).
      destruct (touchMove_fields (gameSpeed (props w)) (touch i)
                  (keyboardMove (gameSpeed (props w)) (keys i)
                                (player (gameState w)))) as (Ew' & Eh' & Es').
      split_conj; congruence.
    + unfold scoreOk. rewrite updateGame_score by exact Hgo.
      destruct (reachable_inv w Hr) as (_ & Ht & _).
      pose proof (sumPoints_nonneg _ (hits_typed i w Hv Ht)).
      split; [lia|]. apply Z.divide_add_r; [exact S2|apply sumPoints_div].
  - split; [repeat split; constructor|]. split; [repeat split|].
    split; [reflexivity|apply Z.divide_0_r].
  - destruct IH as ((Hb & Heb & He) & (P1 & P2 & P3) & HS).
    split; [repeat split; assumption|]. split; [|exact HS].
    repeat split; assumption.
Qed.

(** X12. In every world the component can be in, each bullet is 4 x 12
    with speed 8, each enemy bullet is 4 x 8 with speed 4, and each enemy is
    a square with a speed between 2 and 5. *)
Theorem listed_entities_keep_factory_shape (w : World) :
  reachable w ->
  Forall (fun b => width b = 4 /\ height b = 12 /\ speed b = 8)
         (bullets (gameState w)) /\
  Forall (fun b => width b = 4 /\ height b = 8 /\ speed b = 4)
         (enemyBullets (gameState w)) /\
  Forall (fun e : Enemy => 2 <= speed e /\ speed e <= 5 /\ width e = height e)
         (enemies (gameState w)).
Proof.
  intro Hr. destruct (reachable_more w Hr) as ((Hb & Heb & He) & _).
  split_conj; (eapply Forall_impl; [|eassumption]); intros a Ha.
  - apply Ha.
  - apply Ha.
  - destruct Ha as (_ & S1 & S2 & S3 & _). auto.
Qed.

(** X13. In every world the component can be in, the player has speed 5
    and is a square whose side is the [playerSize] of the current props. *)
Theorem player_shape_follows_props (w : World) :
  reachable w ->
  speed (player (gameState w)) = 5 /\
  width (player (gameState w)) = playerSize (props w) /\
  height (player (gameState w)) = playerSize (props w).
Proof. intro Hr. now destruct (reachable_more w Hr) as (_ & Hp & _). Qed.

(** X14. In every world the component can be in, the score is a
    non-negative multiple of 10. *)
Theorem score_is_multiple_of_ten (w : World) :
  reachable w -> (0 <= score w)%Z /\ (10 | score w)%Z.
Proof. intro Hr. now destruct (reachable_more w Hr) as (_ & _ & Hs). Qed.

Lemma Forall2_same_length {A} (R : A -> A -> Prop) l l' :
  Forall2 R l l' -> List.length l' = List.length l.
Proof. induction 1; simpl; congruence. Qed.

Lemma growth_bounds (i : TickInput) (w : World) :
  gameOver (gameState w) = false ->
  let g := gameState w in
  let g' := gameState (updateGame i w) in
  let fired := if (now i - lastBulletFire g >? 200)%Z then 1%nat else 0%nat in
  let spawned := if (now i - lastEnemySpawn g >? 1000)%Z then 1%nat else 0%nat in
  (List.length (bullets g') <= List.length (bullets g) + fired)%nat /\
  (List.length (enemies g') <= List.length (enemies g) + spawned)%nat /\
  (List.length (enemyBullets g') <=
     List.length (enemyBullets g) + List.length (enemies g) + spawned)%nat.
Proof.
  intros Hgo g g' fired spawned. subst g' g.
  rewrite (updateGame_bullets i w Hgo), (updateGame_enemies i w Hgo),
    (updateGame_enemyBullets i w Hgo).
  pose proof (Forall2_same_length _ _ _ (afterBulletEnemy_bullets i w)) as Lb.
  destruct (afterBulletEnemy_facts i w) as (D & _).
  apply Forall2_same_length in D.
  destruct (beforeCollisions_enemiesLoop (props w) i (gameState w))
    as (Ee & Eb & _).
  rewrite Ee in D.
  pose proof (enemiesLoop_length (gameSpeed (props w)) (random i)
                (if spawns i (gameState w) then 3 else 0)%nat
                (enemiesIn (props w) i (gameState w))
                (enemyBulletsIn (props w) (gameState w))) as Le.
  destruct (enemiesLoop_fired (gameSpeed (props w)) (random i)
              (if spawns i (gameState w) then 3 else 0)%nat
              (enemiesIn (props w) i (gameState w))
              (enemyBulletsIn (props w) (gameState w)))
    as (new & En & Ln & _).
  rewrite Eb, En.
  assert (List.length (enemiesIn (props w) i (gameState w)) =
          List.length (enemies (gameState w)) + spawned)%nat as Lin.
  { unfold enemiesIn, spawns. subst spawned.
    destruct (now i - lastEnemySpawn (gameState w) >? 1000)%Z;
      [rewrite length_app; simpl; lia | lia]. }
  assert (List.length (enemyBulletsIn (props w) (gameState w)) <=
          List.length (enemyBullets (gameState w)))%nat as Lebs.
  { unfold enemyBulletsIn.
    eapply Nat.le_trans; [apply filter_length_le|].
    rewrite length_map. apply Nat.le_refl. }
  assert (List.length (bullets (beforeCollisions (props w) i (gameState w)))
          <= List.length (bullets (gameState w)) + fired)%nat as Lbs.
  { rewrite beforeCollisions_bullets.
    eapply Nat.le_trans; [apply filter_length_le|]. rewrite length_map.
    unfold autoFire, movePlayer. cbn [bullets setPlayer lastBulletFire].
    subst fired.
    destruct (now i - lastBulletFire (gameState w) >? 200)%Z;
      cbn [bullets setBullets setLastBulletFire setPlayer];
      [rewrite length_app; simpl; lia | lia]. }
  unfold Bullet, EnemyBullet in *.
  split_conj.
  - eapply Nat.le_trans; [apply filter_length_le|]. lia.
  - eapply Nat.le_trans; [apply filter_length_le|]. lia.
  - eapply Nat.le_trans; [apply filter_length_le|].
    rewrite length_app. lia.
Qed.

(** X15. One step run while [gameOver] is false adds at most one bullet,
    and none unless the fire gate is open; at most one enemy, and none
    unless the spawn gate is open; and at most one enemy bullet per enemy
    taking part in the tick. *)
Theorem step_growth_is_bounded (i : TickInput) (w : World) :
  gameOver (gameState w) = false ->
  let g := gameState w in
  let g' := gameState (updateGame i w) in
  let fired := if (now i - lastBulletFire g >? 200)%Z then 1%nat else 0%nat in
  let spawned := if (now i - lastEnemySpawn g >? 1000)%Z then 1%nat else 0%nat in
  (List.length (bullets g') <= List.length (bullets g) + fired)%nat /\
  (List.length (enemies g') <= List.length (enemies g) + spawned)%nat /\
  (List.length (enemyBullets g') <=
     List.length (enemyBullets g) + List.length (enemies g) + spawned)%nat.
Proof. exact (growth_bounds i w). Qed.

(** X16. After a step that fires, the fire timestamp is the time of that
    step, and a following step at most 200 ms later keeps the timestamp and
    does not add a bullet. *)
Theorem fire_rate_limit (i1 i2 : TickInput) (w : World) :
  gameOver (gameState w) = false ->
  (now i1 - lastBulletFire (gameState w) > 200)%Z ->
  (now i2 - now i1 <= 200)%Z ->
  let w1 := updateGame i1 w in
  let w2 := updateGame i2 w1 in
  lastBulletFire (gameState w1) = now i1 /\
  lastBulletFire (gameState w2) = now i1 /\
  (List.length (bullets (gameState w2)) <=
   List.length (bullets (gameState w1)))%nat.
Proof.
  intros Hgo H1 H2 w1 w2.
  assert (lastBulletFire (gameState w1) = now i1) as E1.
  { subst w1. rewrite (updateGame_lastBulletFire i1 w Hgo).
    unfold autoFire. cbn [movePlayer lastBulletFire setPlayer].
    apply Z.gtb_gt in H1. now rewrite H1. }
  split; [exact E1|].
  destruct (gameOver (gameState w1)) eqn:Hgo1.
  - subst w2. rewrite frozen_when_over by exact Hgo1. split; [exact E1|lia].
  - assert ((now i2 - lastBulletFire (gameState w1) >? 200)%Z = false) as Eno.
    { rewrite E1. destruct (Z.gtb_spec (now i2 - now i1) 200); [lia|easy]. }
    split.
    + subst w2. rewrite (updateGame_lastBulletFire i2 w1 Hgo1).
      unfold autoFire. cbn [movePlayer lastBulletFire setPlayer].
      now rewrite Eno.
    + destruct (growth_bounds i2 w1 Hgo1) as (L & _).
      rewrite Eno in L. fold w2 in L. lia.
Qed.

Lemma Forall2_In_right {A} (R : A -> A -> Prop) l l' b :
  Forall2 R l l' -> In b l' -> exists a, In a l /\ R a b.
Proof.
  induction 1 as [|a0 b0 l l' Hab _ IH]; intros Hin; [contradiction|].
  destruct Hin as [<-|Hin].
  - exists a0. split; [now left|exact Hab].
  - destruct (IH Hin) as (a & Ha & HR). exists a. split; [now right|exact HR].
Qed.

(** X17. Every bullet of the next state is a bullet of the previous state,
    or the one fired in this tick from the moved player, with only its y
    lowered by [speed * gameSpeed]; every enemy of the next state is an
    enemy of the previous state, or the one spawned in this tick, with only
    its y raised by [speed * gameSpeed]. *)
Theorem surviving_entities_only_move_vertically (i : TickInput) (w : World) :
  gameOver (gameState w) = false ->
  let g := gameState w in
  let gs := gameSpeed (props w) in
  let p' := player (gameState (updateGame i w)) in
  (forall b', In b' (bullets (gameState (updateGame i w))) ->
     exists b, (In b (bullets g) \/
                ((now i - lastBulletFire g > 200)%Z /\ b = fireBullet p')) /\
               b' = setY b (y b - speed b * gs)) /\
  (forall e', In e' (enemies (gameState (updateGame i w))) ->
     exists e, (In e (enemies g) \/
                ((now i - lastEnemySpawn g > 1000)%Z /\
                 e = spawnEnemy (enemySize (props w))
                       (random i 0) (random i 1) (random i 2))) /\
               e' = mkEnemy (setY e (y e + speed e * gs)) (type e)).
Proof.
  intros Hgo g gs p'. subst g gs. split.
  - intros b' Hin. rewrite (updateGame_bullets i w Hgo) in Hin.
    apply filter_In in Hin as [Hin Hact].
    destruct (Forall2_In_right _ _ _ _ (afterBulletEnemy_bullets i w) Hin)
      as (b6 & Hin6 & Hsp).
    assert (b' = b6) as ->.
    { destruct Hsp as [->| ->]; [reflexivity|]. simpl in Hact. discriminate. }
    rewrite beforeCollisions_bullets in Hin6.
    apply filter_In in Hin6 as [Hin6 _].
    apply in_map_iff in Hin6 as (b & <- & Hb).
    exists b. split; [|reflexivity].
    unfold autoFire in Hb. cbn [movePlayer lastBulletFire setPlayer] in Hb.
    destruct (Z.gtb_spec (now i - lastBulletFire (gameState w)) 200).
    + cbn [bullets setBullets setLastBulletFire setPlayer] in Hb.
      apply in_app_or in Hb as [Hb|[<-|[]]]; [now left|right].
      split; [lia|]. subst p'. now rewrite (updateGame_player i w Hgo).
    + left. exact Hb.
  - intros e' Hin. rewrite (updateGame_enemies i w Hgo) in Hin.
    apply filter_In in Hin as [Hin Hact].
    destruct (afterBulletEnemy_facts i w) as (D & _).
    destruct (Forall2_In_right _ _ _ _ D Hin) as (e6 & Hin6 & Hd).
    assert (e' = e6) as ->.
    { destruct Hd as [->|[_ ->]]; [reflexivity|]. simpl in Hact.
      discriminate. }
    destruct (beforeCollisions_enemiesLoop (props w) i (gameState w))
      as (E & _).
    rewrite E in Hin6.
    pose proof (enemiesLoop_kept (gameSpeed (props w)) (random i)
                  (if spawns i (gameState w) then 3 else 0)%nat
                  (enemiesIn (props w) i (gameState w))
                  (enemyBulletsIn (props w) (gameState w))) as K.
    rewrite Forall_forall in K. destruct (K _ Hin6) as (_ & e & He & ->).
    exists e. split; [|reflexivity].
    unfold enemiesIn, spawns in He.
    destruct (Z.gtb_spec (now i - lastEnemySpawn (gameState w)) 1000).
    + apply in_app_or in He as [He|[<-|[]]]; [now left|right].
      split; [lia|reflexivity].
    + left. exact He.
Qed.

(** X11. In every world the component can be in, each listed bullet, enemy
    bullet and enemy is active; no listed bullet is entirely above the top
    border and no listed enemy is a full height below the bottom border. *)
Theorem listed_entities_are_live (w : World) :
  reachable w ->
  Forall (fun b => active b = true /\ - height b < y b)
         (bullets (gameState w)) /\
  Forall (fun b => active b = true) (enemyBullets (gameState w)) /\
  Forall (fun e : Enemy => active e = true /\ y e < CANVAS_HEIGHT + height e)
         (enemies (gameState w)).
Proof.
  intro Hr. destruct (reachable_more w Hr) as ((Hb & Heb & He) & _).
  split_conj; (eapply Forall_impl; [|eassumption]); intros a Ha.
  - destruct Ha as (A & _ & B). auto.
  - apply Ha.
  - destruct Ha as (A & _ & _ & _ & B). auto.
Qed.

(** X18. In a step run while [gameOver] is false: if strictly more than
    1000 ms have passed since the last spawn, the spawn timestamp of the
    next state is the current time and the enemy built from the first three
    [Math.random()] results is appended before the enemies are updated (the
    shooting draws start at the fourth result); otherwise the timestamp is
    kept, no enemy is appended and the number of enemies does not grow. *)
Theorem spawn_gate (i : TickInput) (w : World) :
  gameOver (gameState w) = false ->
  let g := gameState w in
  let g' := gameState (updateGame i w) in
  let gs := gameSpeed (props w) in
  let ebs := filter keepBelow (map (moveDown gs) (enemyBullets g)) in
  ((now i - lastEnemySpawn g > 1000)%Z ->
     lastEnemySpawn g' = now i /\
     enemies (beforeCollisions (props w) i g) =
       fst (enemiesLoop gs (random i) 3
              (enemies g ++ [spawnEnemy (enemySize (props w))
                               (random i 0) (random i 1) (random i 2)])
              ebs)) /\
  ((now i - lastEnemySpawn g <= 1000)%Z ->
     lastEnemySpawn g' = lastEnemySpawn g /\
     enemies (beforeCollisions (props w) i g) =
       fst (enemiesLoop gs (random i) 0 (enemies g) ebs) /\
     (List.length (enemies g') <= List.length (enemies g))%nat).
Proof.
  intros Hgo g g' gs ebs.
  assert (lastEnemySpawn g' =
          if spawns i g then now i else lastEnemySpawn g) as El.
  { subst g' g. unfold updateGame. rewrite Hgo.
    cbn [gameState updateExplosions pruneInactive lastEnemySpawn setExplosions
         setEnemies setEnemyBullets setBullets].
    destruct (afterPlayerCollisions_frame i w) as (_ & _ & _ & _ & -> & _).
    unfold afterBulletEnemy.
    destruct (bulletEnemyCollisions_frame
                (beforeCollisions (props w) i (gameState w)) (score w))
      as (_ & _ & -> & _).
    now destruct (beforeCollisions_enemiesLoop (props w) i (gameState w))
      as (_ & _ & ->). }
  destruct (growth_bounds i w Hgo) as (_ & Le & _).
  fold g g' in Le.
  pose proof (proj1 (beforeCollisions_enemiesLoop (props w) i (gameState w)))
    as Ee.
  fold g in Ee. unfold enemiesIn, enemyBulletsIn in Ee. fold gs ebs in Ee.
  unfold spawns in *. split.
  - intro H. apply Z.gtb_gt in H. rewrite H in El, Ee.
    split; [exact El|exact Ee].
  - intro H. destruct (Z.gtb_spec (now i - lastEnemySpawn g) 1000); [lia|].
    split; [exact El|]. split; [exact Ee|].
    rewrite Nat.add_0_r in Le. exact Le.
Qed.

End MoreProperties.

(** ** Input handlers *)

Ltac split_conj := repeat match goal with |- _ /\ _ => split end.

Lemma has_In ks k : has ks k = true <-> In k ks.
Proof.
  unfold has. rewrite existsb_exists. split.
  - intros (a & Ha & E). apply String.eqb_eq in E. now subst.
  - intro H. exists k. split; [exact H|apply String.eqb_refl].
Qed.

Lemma has_setAdd k ks k' :
  has (setAdd k ks) k' = String.eqb k' k || has ks k'.
Proof.
  unfold setAdd. destruct (has ks k) eqn:E.
  - destruct (String.eqb_spec k' k) as [->|]; [now rewrite E|reflexivity].
  - unfold has. rewrite existsb_app. simpl.
    rewrite orb_false_r. apply orb_comm.
Qed.

Lemma has_setDelete k ks k' :
  has (setDelete k ks) k' = negb (String.eqb k' k) && has ks k'.
Proof.
  unfold has, setDelete. induction ks as [|a ks IH]; simpl.
  - now rewrite andb_false_r.
  - destruct (String.eqb_spec a k) as [->|Hne]; simpl.
    + rewrite IH. destruct (String.eqb_spec k' k); reflexivity.
    + rewrite IH. destruct (String.eqb_spec k' a) as [->|]; simpl.
      * destruct (String.eqb_spec a k); [contradiction|reflexivity].
      * reflexivity.
Qed.

Lemma has_clearArrows ks k :
  has (clearArrows ks) k = negb (has arrowKeys k) && has ks k.
Proof.
  unfold clearArrows. rewrite !has_setDelete. unfold arrowKeys, has.
  simpl. rewrite orb_false_r.
  destruct (String.eqb k "ArrowLeft"), (String.eqb k "ArrowRight"),
    (String.eqb k "ArrowUp"), (String.eqb k "ArrowDown"); reflexivity.
Qed.

(** X19. After a key-down followed by a key-up of the same key, that key is
    not held, and every other key is held exactly if it was before. *)
Theorem key_down_then_up_releases (k : string) (c : Component) :
  has (keysRef (handleKeyUp k (handleKeyDown k c))) k = false /\
  (forall k', k' <> k ->
     has (keysRef (handleKeyUp k (handleKeyDown k c))) k' =
     has (keysRef c) k').
Proof.
  cbn [handleKeyUp handleKeyDown keysRef]. split.
  - rewrite has_setDelete, String.eqb_refl. reflexivity.
  - intros k' Hne. rewrite has_setDelete.
    destruct (String.eqb_spec k' k) as [->|_]; [contradiction|].
    cbn [negb andb].
    destruct (has arrowKeys k); [|reflexivity].
    rewrite has_setAdd.
    destruct (String.eqb_spec k' k) as [->|_]; [contradiction|reflexivity].
Qed.

(** X20. A key-down makes its key held only if it is one of the four arrow
    keys; a key-down of any other key while the game is running changes
    nothing and does not prevent the default action. *)
Theorem key_down_records_only_arrows (k : string) (c : Component) :
  (forall k', has (keysRef (handleKeyDown k c)) k' =
              (has arrowKeys k && String.eqb k' k) || has (keysRef c) k') /\
  (has arrowKeys k = false ->
   gameOver (gameState (world c)) = false ->
   handleKeyDown k c = c /\ keyDownPrevented k c = false).
Proof.
  split.
  - intro k'. cbn [handleKeyDown keysRef].
    destruct (has arrowKeys k); [apply has_setAdd|reflexivity].
  - intros Ha Hgo. unfold handleKeyDown, keyDownPrevented, restartIfOver.
    rewrite Ha, Hgo. destruct c; split; reflexivity.
Qed.

Lemma Qabs_zero_iff q : Qabs q <= 0 <-> q == 0.
Proof.
  split.
  - intro H. pose proof (Qle_Qabs q). pose proof (Qle_Qabs (- q)) as H'.
    rewrite Qabs_opp in H'. lra.
  - intro H. rewrite H. discriminate.
Qed.

Lemma Qlt_bool_false a b : Qlt_bool a b = false <-> b <= a.
Proof.
  destruct (Qlt_bool a b) eqn:E.
  - apply Qlt_bool_iff in E. split; [discriminate|]. intro. lra.
  - split; [|reflexivity]. intros _. apply Qnot_lt_le. intro H.
    apply Qlt_bool_iff in H. congruence.
Qed.

(** X21. The direction chosen from a touch: left or right when the
    horizontal offset from the canvas centre is strictly larger in absolute
    value than the vertical one, up or down otherwise (ties go to the
    vertical axis), and none exactly when the touch is at the centre. *)
Theorem touchDirection_cases (rect : DOMRect.t) (t : Touch) :
  let dx := clientX t - DOMRect.left rect - DOMRect.width rect / 2 in
  let dy := clientY t - DOMRect.top rect - DOMRect.height rect / 2 in
  (touchDirection rect t = Some "ArrowLeft"%string <->
     Qabs dy < Qabs dx /\ dx < 0) /\
  (touchDirection rect t = Some "ArrowRight"%string <->
     Qabs dy < Qabs dx /\ 0 < dx) /\
  (touchDirection rect t = Some "ArrowUp"%string <->
     Qabs dx <= Qabs dy /\ dy < 0) /\
  (touchDirection rect t = Some "ArrowDown"%string <->
     Qabs dx <= Qabs dy /\ 0 < dy) /\
  (touchDirection rect t = None <-> dx == 0 /\ dy == 0).
Proof.
  intros dx dy. unfold touchDirection. cbv zeta. fold dx dy. unfold Qgt_bool.
  set (tx := clientX t - DOMRect.left rect) in *.
  set (ty := clientY t - DOMRect.top rect) in *.
  set (cx := DOMRect.width rect / 2) in *.
  set (cy := DOMRect.height rect / 2) in *.
  assert (dx == tx - cx) as Edx by reflexivity.
  assert (dy == ty - cy) as Edy by reflexivity.
  clearbody dx dy tx ty cx cy.
  destruct (Qlt_bool (Qabs dy) (Qabs dx)) eqn:Eh;
    [apply Qlt_bool_iff in Eh | apply Qlt_bool_false in Eh].
  - destruct (Qlt_bool tx cx) eqn:El;
      [apply Qlt_bool_iff in El | apply Qlt_bool_false in El].
    + split_conj; split; try discriminate; try (intros _; split; lra);
        intros [A B]; try lra.
    + destruct (Qlt_bool cx tx) eqn:Er;
        [apply Qlt_bool_iff in Er | apply Qlt_bool_false in Er].
      * split_conj; split; try discriminate; try (intros _; split; lra);
          intros [A B]; try lra.
      * assert (dx == 0) as Z by lra.
        rewrite Z in Eh. change (Qabs 0) with 0 in Eh.
        pose proof (Qabs_nonneg dy). lra.
  - destruct (Qlt_bool ty cy) eqn:Eu;
      [apply Qlt_bool_iff in Eu | apply Qlt_bool_false in Eu].
    + split_conj; split; try discriminate; try (intros _; split; lra);
        intros [A B]; try lra.
    + destruct (Qlt_bool cy ty) eqn:Ed;
        [apply Qlt_bool_iff in Ed | apply Qlt_bool_false in Ed].
      * split_conj; split; try discriminate; try (intros _; split; lra);
          intros [A B]; try lra.
      * assert (dy == 0) as Z by lra.
        assert (dx == 0) as Z'.
        { apply Qabs_zero_iff. rewrite Z in Eh. exact Eh. }
        split_conj; split; try discriminate; try (intros _; split; assumption);
          intros [A B]; try lra.
Qed.

Lemma touchDirection_arrow rect t d :
  touchDirection rect t = Some d -> In d arrowKeys.
Proof.
  unfold touchDirection, arrowKeys. cbv zeta.
  repeat match goal with
  | |- context [if ?c then _ else _] => destruct c
  end; intro E; inversion E; simpl; auto.
Qed.

Lemma has_steer rect touches ks k :
  has (steer rect touches ks) k = true ->
  has ks k = true \/
  exists r t ts, rect = Some r /\ touches = t :: ts /\
                 touchDirection r t = Some k.
Proof.
  unfold steer. destruct rect as [r|]; [|auto].
  destruct touches as [|t ts]; [auto|].
  destruct (touchDirection r t) as [d|] eqn:E; [|auto].
  rewrite has_setAdd. intro H. apply orb_true_iff in H as [H|H]; [|auto].
  apply String.eqb_eq in H. subst. right. exists r, t, ts. auto.
Qed.

(** X22. After a touch-move at most one arrow key is held, and after a
    touch-end none; both leave the other keys of the set as they were. *)
Theorem touch_move_holds_one_arrow (rect : option DOMRect.t)
        (touches : list Touch) (c : Component) :
  let ks' := keysRef (handleTouchMove rect touches c) in
  (forall k1 k2, In k1 arrowKeys -> In k2 arrowKeys ->
     has ks' k1 = true -> has ks' k2 = true -> k1 = k2) /\
  (forall k, ~ In k arrowKeys -> has ks' k = has (keysRef c) k) /\
  (forall k, In k arrowKeys ->
     has (keysRef (handleTouchEnd c)) k = false) /\
  (forall k, ~ In k arrowKeys ->
     has (keysRef (handleTouchEnd c)) k = has (keysRef c) k).
Proof.
  cbn [handleTouchMove handleTouchEnd keysRef]. split_conj.
  - intros k1 k2 A1 A2 H1 H2.
    apply has_In in A1, A2.
    apply has_steer in H1, H2.
    rewrite has_clearArrows, A1 in H1. rewrite has_clearArrows, A2 in H2.
    destruct H1 as [H1|(r & t & ts & -> & -> & E1)]; [discriminate|].
    destruct H2 as [H2|(r' & t' & ts' & Er & Et & E2)]; [discriminate|].
    inversion Er; inversion Et; subst. congruence.
  - intros k Hk.
    assert (has arrowKeys k = false) as Ek.
    { destruct (has arrowKeys k) eqn:E; [|reflexivity].
      apply has_In in E. contradiction. }
    unfold steer. destruct rect as [r|];
      [|now rewrite has_clearArrows, Ek].
    destruct touches as [|t ts]; [now rewrite has_clearArrows, Ek|].
    destruct (touchDirection r t) as [d|] eqn:E;
      [|now rewrite has_clearArrows, Ek].
    rewrite has_setAdd, has_clearArrows, Ek.
    destruct (String.eqb_spec k d) as [->|_]; [|reflexivity].
    apply touchDirection_arrow in E. contradiction.
  - intros k Hk. apply has_In in Hk. now rewrite has_clearArrows, Hk.
  - intros k Hk.
    assert (has arrowKeys k = false) as Ek.
    { destruct (has arrowKeys k) eqn:E; [|reflexivity].
      apply has_In in E. contradiction. }
    now rewrite has_clearArrows, Ek.
Qed.

Section Component.
Context {M : MathLib}.

(** X23. While [gameOver] is true, a key-down of any key, a touch-start and
    a click restart the game (the world is the initial one for the current
    props); a key-up, a touch-move, a touch-end and an animation frame leave
    the world as it is. *)
Theorem world_after_event_when_over (c : Component) (e : Event) :
  gameOver (gameState (world c)) = true ->
  world (dispatch c e) =
  match e with
  | KeyDown _ | TouchStart _ _ | Click => initialWorld (props (world c))
  | NewProps p => resizePlayer p (world c)
  | KeyUp _ | TouchMove _ _ | TouchEnd | AnimationFrame _ _ => world c
  end.
Proof.
  intro Hgo. destruct e; cbn [dispatch handleKeyDown handleKeyUp
    handleTouchStart handleTouchMove handleTouchEnd handleCanvasClick frame
    world]; unfold restartIfOver; rewrite ?Hgo; try reflexivity.
  now apply frozen_when_over.
Qed.

Lemma NoDup_setAdd k ks : NoDup ks -> NoDup (setAdd k ks).
Proof.
  intro H. unfold setAdd. destruct (has ks k) eqn:E; [exact H|].
  apply NoDup_app; [exact H | constructor; [intros []|constructor] |].
  intros a Ha [<-|[]]. apply has_In in Ha. congruence.
Qed.

Lemma incl_setAdd k ks : In k arrowKeys -> incl ks arrowKeys ->
  incl (setAdd k ks) arrowKeys.
Proof.
  intros Hk H. unfold setAdd. destruct (has ks k); [exact H|].
  apply incl_app; [exact H|]. intros a [<-|[]]. exact Hk.
Qed.

Lemma steer_ok rect touches ks :
  NoDup ks -> incl ks arrowKeys ->
  NoDup (steer rect touches ks) /\ incl (steer rect touches ks) arrowKeys.
Proof.
  intros Hn Hi. unfold steer. destruct rect as [r|]; [|auto].
  destruct touches as [|t ts]; [auto|].
  destruct (touchDirection r t) as [d|] eqn:E; [|auto].
  apply touchDirection_arrow in E.
  split; [now apply NoDup_setAdd | now apply incl_setAdd].
Qed.

Lemma clearArrows_ok ks :
  NoDup ks -> incl ks arrowKeys ->
  NoDup (clearArrows ks) /\ incl (clearArrows ks) arrowKeys.
Proof.
  intros Hn Hi. unfold clearArrows, setDelete. split.
  - repeat apply NoDup_filter. exact Hn.
  - intros a Ha. repeat (apply filter_In in Ha as [Ha _]). now apply Hi.
Qed.

Lemma dispatch_refs c e :
  touchRef c = None /\ NoDup (keysRef c) /\ incl (keysRef c) arrowKeys ->
  touchRef (dispatch c e) = None /\ NoDup (keysRef (dispatch c e)) /\
  incl (keysRef (dispatch c e)) arrowKeys.
Proof.
  intros (Ht & Hn & Hi).
  destruct e; cbn [dispatch handleKeyDown handleKeyUp handleTouchStart
    handleTouchMove handleTouchEnd handleCanvasClick frame touchRef keysRef];
    (split; [exact Ht|]); auto.
  - destruct (has arrowKeys key) eqn:E; [|auto].
    apply has_In in E. split; [now apply NoDup_setAdd|now apply incl_setAdd].
  - unfold setDelete. split; [now apply NoDup_filter|].
    intros a Ha. apply filter_In in Ha as [Ha _]. now apply Hi.
  - now apply steer_ok.
  - destruct (clearArrows_ok _ Hn Hi). now apply steer_ok.
  - now apply clearArrows_ok.
Qed.

Lemma play_refs es c :
  touchRef c = None /\ NoDup (keysRef c) /\ incl (keysRef c) arrowKeys ->
  touchRef (play es c) = None /\ NoDup (keysRef (play es c)) /\
  incl (keysRef (play es c)) arrowKeys.
Proof.
  revert c. induction es as [|e es IH]; intros c H; [exact H|].
  simpl. apply IH. now apply dispatch_refs.
Qed.

(** X24. Whatever events a mounted component receives, its touch target
    is never set, and its key set has no repetition and holds arrow keys
    only. *)
Theorem mounted_refs_invariant (p : SpaceShooterProps) (es : list Event) :
  let c := play es (mount p) in
  touchRef c = None /\ NoDup (keysRef c) /\ incl (keysRef c) arrowKeys.
Proof.
  apply play_refs. split; [reflexivity|]. split; [constructor|].
  intros a [].
Qed.

(** X25. In a mounted component an animation frame run while [gameOver] is
    false moves the player by the keyboard channel alone: the touch block of
    the updater, and with it the clamp to the playfield, is never run. *)
Theorem mounted_frame_is_keyboard_only (p : SpaceShooterProps)
        (es : list Event) (t : Z) (rnd : nat -> Q) :
  let c := play es (mount p) in
  gameOver (gameState (world c)) = false ->
  player (gameState (world (frame t rnd c))) =
  keyboardMove (gameSpeed (props (world c))) (keysRef c)
               (player (gameState (world c))).
Proof.
  intros c Hgo. cbn [frame world].
  rewrite updateGame_player by exact Hgo. cbn [touch keys].
  destruct (play_refs es (mount p)) as (Ht & _).
  { split; [reflexivity|]. split; [constructor|]. intros a []. }
  fold c in Ht. now rewrite Ht.
Qed.

(** X26. Every world a mounted component gets into through events whose
    [Math.random()] results are in [0, 1) is reachable in the sense used for
    the invariants above. *)
Theorem mounted_worlds_are_reachable (p : SpaceShooterProps)
        (es : list Event) :
  Forall validEvent es -> reachable (world (play es (mount p))).
Proof.
  intro Hv.
  assert (forall c, reachable (world c) -> reachable (world (play es c))) as H.
  { induction Hv as [|e es He _ IH]; intros c Hr; [exact Hr|].
    simpl. apply IH.
    destruct e; cbn [dispatch handleKeyDown handleKeyUp handleTouchStart
      handleTouchMove handleTouchEnd handleCanvasClick frame world];
      unfold restartIfOver;
      try (destruct (gameOver (gameState (world c)));
           [now apply reach_reset|exact Hr]);
      try exact Hr.
    - apply reach_tick; [exact Hr|]. exact He.
    - now apply reach_props. }
  apply H. apply reach_init.
Qed.

End Component.

(** ** Drawing helpers *)

Lemma snap_bounds v : snap v <= v /\ v < snap v + 4.
Proof.
  unfold snap, PIXEL_SIZE.
  pose proof (Qfloor_le (v / 4)) as L. pose proof (Qlt_floor (v / 4)) as U.
  rewrite inject_Z_plus in U. change (inject_Z 1) with 1 in U.
  assert (v == v / 4 * 4) as E by field.
  set (f := inject_Z (Qfloor (v / 4))) in *. set (q := v / 4) in *.
  clearbody f q. split; lra.
Qed.




Section DrawnWorld.
Context {M : MathLib}.

(** X29. In every world the component can be in, each bullet is drawn as
    one 4 x 12 rectangle and each enemy bullet as one 4 x 8 rectangle, whose
    origin is less than 4 left of and above the bullet's position. *)
Theorem reachable_bullets_drawn_full_size (w : World) (c : string) :
  reachable w ->
  Forall (fun b => exists X Y W H,
            drawBullet c b = [FillStyle c; FillRect X Y W H] /\
            W == 4 /\ H == 12 /\
            X <= x b /\ x b < X + 4 /\ Y <= y b /\ y b < Y + 4)
         (bullets (gameState w)) /\
  Forall (fun b => exists X Y W H,
            drawEnemyBullet c b = [FillStyle c; FillRect X Y W H] /\
            W == 4 /\ H == 8 /\
            X <= x b /\ x b < X + 4 /\ Y <= y b /\ y b < Y + 4)
         (enemyBullets (gameState w)).
Proof.
  intro Hr. destruct (reachable_more w Hr) as ((Hb & Heb & _) & _).
  split; (eapply Forall_impl; [|eassumption]); intros b Hok.
  - destruct Hok as (_ & (Ew & Eh & _) & _).
    exists (snap (x b)), (snap (y b)), (snap (width b)), (snap (height b)).
    split; [reflexivity|]. rewrite Ew, Eh.
    destruct (snap_bounds (x b)), (snap_bounds (y b)).
    split_conj; try assumption; reflexivity.
  - destruct Hok as (_ & (Ew & Eh & _)).
    exists (snap (x b)), (snap (y b)), (snap (width b)), (snap (height b)).
    split; [reflexivity|]. rewrite Ew, Eh.
    destruct (snap_bounds (x b)), (snap_bounds (y b)).
    split_conj; try assumption; reflexivity.
Qed.

End DrawnWorld.

(** ** Evaluations of the further properties *)

Ltac qcmp :=
  first [ reflexivity | discriminate
        | vm_compute; reflexivity | vm_compute; discriminate ].

Lemma crashed_reachable : @reachable evalMath crashed.
Proof.
  apply reach_tick; [exact crashEve_reachable|].
  apply tickAt_valid; [discriminate | reflexivity].
Qed.

Lemma spawnEnemy_in_range_witness :
  let e := spawnEnemy 32 0.9 0.9 0.9 in
  0 <= x e /\ x e <= CANVAS_WIDTH - 32.
Proof.
  assert (0 < 32) as H1 by qcmp. assert (32 <= CANVAS_WIDTH) as H2 by qcmp.
  assert (0 <= 0.9 < 1) as H3 by (split; qcmp).
  pose proof (spawnEnemy_in_range 32 0.9 0.9 0.9 H1 H2 H3 H3 H3) as H.
  cbv zeta in H. destruct H as (A & B & _). cbv zeta. split; assumption.
Defined.

Lemma opposing_keys_both_apply_witness :
  has bothKeys "ArrowLeft" = true /\ has bothKeys "ArrowRight" = true /\
  x (keyboardMove 1 bothKeys startPlayer) =
    x startPlayer - speed startPlayer * 1 + speed startPlayer * 1.
Proof.
  assert (has bothKeys "ArrowLeft" = true) as H1 by reflexivity.
  assert (has bothKeys "ArrowRight" = true) as H2 by reflexivity.
  split; [exact H1|]. split; [exact H2|].
  apply (proj1 (opposing_keys_both_apply 1 bothKeys startPlayer H1 H2)); qcmp.
Defined.

Lemma player_stays_near_playfield_witness :
  nearPlayfield (gameSpeed (props mounted)) (player (gameState mounted)) /\
  nearPlayfield (gameSpeed (props mounted))
    (player (gameState
       (@run evalMath (ticks ["ArrowRight"%string] 0.9 74) mounted))).
Proof.
  assert (nearPlayfield (gameSpeed (props mounted))
                        (player (gameState mounted))) as Hn
      by (vm_compute; repeat split; discriminate).
  split; [exact Hn|].
  apply (@player_stays_near_playfield evalMath
           (ticks ["ArrowRight"%string] 0.9 74) mounted);
    [qcmp | qcmp | qcmp | exact Hn].
Defined.

Lemma idle_frame_keeps_player_witness :
  gameOver (gameState mounted) = false /\
  player (gameState (@updateGame evalMath (tickAt t0 [] 0.9) mounted)) =
  player (gameState mounted).
Proof.
  split; [reflexivity|].
  apply (@idle_frame_keeps_player evalMath (tickAt t0 [] 0.9) mounted);
    [reflexivity | intros k _; reflexivity | reflexivity].
Defined.

Lemma touch_dead_zone_witness :
  inPlayfield startPlayer /\
  x (@touchMove evalMath 1 (Some (416, 516)) startPlayer) == x startPlayer.
Proof.
  assert (inPlayfield startPlayer) as Hin
      by (vm_compute; repeat split; discriminate).
  split; [exact Hin|].
  pose proof (@touch_dead_zone evalMath 1 416 516 startPlayer) as H.
  cbv zeta in H. apply H; [qcmp | exact Hin].
Defined.

Lemma touch_moves_toward_target_witness :
  inPlayfield startPlayer /\
  x startPlayer <= x (@touchMove evalMath 1 (Some (446, 556)) startPlayer).
Proof.
  assert (inPlayfield startPlayer) as Hin
      by (vm_compute; repeat split; discriminate).
  split; [exact Hin|].
  pose proof (@touch_moves_toward_target evalMath 1 446 556 startPlayer) as H.
  cbv zeta in H.
  assert (5 < @Math_sqrt evalMath
                ((446 - width startPlayer / 2 - x startPlayer) *
                 (446 - width startPlayer / 2 - x startPlayer) +
                 (556 - height startPlayer / 2 - y startPlayer) *
                 (556 - height startPlayer / 2 - y startPlayer))) as H5
      by qcmp.
  assert (0 <= speed startPlayer) as Hs by qcmp.
  assert (0 <= 1) as Hg by qcmp.
  refine (proj1 (H H5 Hs Hg Hin) _). qcmp.
Defined.

Lemma listed_entities_are_live_witness :
  @reachable evalMath crashed /\
  Forall (fun b => active b = true) (enemyBullets (gameState crashed)).
Proof.
  split; [exact crashed_reachable|].
  exact (proj1 (proj2 (@listed_entities_are_live evalMath crashed
                         crashed_reachable))).
Defined.

Lemma listed_entities_keep_factory_shape_witness :
  @reachable evalMath crashed /\
  Forall (fun b => width b = 4 /\ height b = 12 /\ speed b = 8)
         (bullets (gameState crashed)).
Proof.
  split; [exact crashed_reachable|].
  exact (proj1 (@listed_entities_keep_factory_shape evalMath crashed
                  crashed_reachable)).
Defined.

Lemma player_shape_follows_props_witness :
  @reachable evalMath crashed /\ speed (player (gameState crashed)) = 5.
Proof.
  split; [exact crashed_reachable|].
  exact (proj1 (@player_shape_follows_props evalMath crashed
                  crashed_reachable)).
Defined.

Lemma score_is_multiple_of_ten_witness :
  @reachable evalMath crashed /\ (0 <= score crashed)%Z /\ (10 | score crashed)%Z.
Proof.
  split; [exact crashed_reachable|].
  exact (@score_is_multiple_of_ten evalMath crashed crashed_reachable).
Defined.

Lemma step_growth_is_bounded_witness :
  gameOver (gameState hitEve) = false /\
  (List.length (bullets (gameState (@updateGame evalMath hitTick hitEve))) <=
   List.length (bullets (gameState hitEve)) +
   (if (now hitTick - lastBulletFire (gameState hitEve) >? 200)%Z
    then 1 else 0))%nat.
Proof.
  assert (gameOver (gameState hitEve) = false) as Hgo by qcmp.
  split; [exact Hgo|].
  pose proof (@step_growth_is_bounded evalMath hitTick hitEve Hgo) as H.
  cbv zeta in H. exact (proj1 H).
Defined.

Lemma fire_rate_limit_witness :
  (now (tickAt t0 [] 0.9) - lastBulletFire (gameState mounted) > 200)%Z /\
  (now tick200 - now (tickAt t0 [] 0.9) <= 200)%Z /\
  lastBulletFire
    (gameState (@updateGame evalMath tick200
                  (@updateGame evalMath (tickAt t0 [] 0.9) mounted))) =
  now (tickAt t0 [] 0.9).
Proof.
  assert (now (tickAt t0 [] 0.9) - lastBulletFire (gameState mounted) > 200)%Z
    as H1 by qcmp.
  assert (now tick200 - now (tickAt t0 [] 0.9) <= 200)%Z as H2 by qcmp.
  split; [exact H1|]. split; [exact H2|].
  pose proof (@fire_rate_limit evalMath (tickAt t0 [] 0.9) tick200 mounted
                eq_refl H1 H2) as H.
  cbv zeta in H. exact (proj1 (proj2 H)).
Defined.

Lemma surviving_entities_only_move_vertically_witness :
  gameOver (gameState hitEve) = false /\
  forall b', In b' (bullets (gameState (@updateGame evalMath hitTick hitEve))) ->
    exists b,
      (In b (bullets (gameState hitEve)) \/
       ((now hitTick - lastBulletFire (gameState hitEve) > 200)%Z /\
        b = fireBullet
              (player (gameState (@updateGame evalMath hitTick hitEve))))) /\
      b' = setY b (y b - speed b * gameSpeed (props hitEve)).
Proof.
  assert (gameOver (gameState hitEve) = false) as Hgo by qcmp.
  split; [exact Hgo|].
  pose proof (@surviving_entities_only_move_vertically evalMath hitTick hitEve
                Hgo) as H.
  cbv zeta in H. exact (proj1 H).
Defined.

Lemma spawn_gate_witness :
  (now (tickAt t0 [] 0.9) - lastEnemySpawn (gameState mounted) > 1000)%Z /\
  lastEnemySpawn (gameState (@updateGame evalMath (tickAt t0 [] 0.9) mounted))
    = now (tickAt t0 [] 0.9).
Proof.
  assert (now (tickAt t0 [] 0.9) - lastEnemySpawn (gameState mounted) > 1000)%Z
    as H1 by qcmp.
  split; [exact H1|].
  pose proof (@spawn_gate evalMath (tickAt t0 [] 0.9) mounted eq_refl) as H.
  cbv zeta in H. exact (proj1 (proj1 H H1)).
Defined.

Lemma world_after_event_when_over_witness :
  gameOver (gameState (world overComponent)) = true /\
  world (@dispatch evalMath overComponent (KeyDown "Enter")) =
  initialWorld (props (world overComponent)).
Proof.
  assert (gameOver (gameState (world overComponent)) = true) as Hgo by qcmp.
  split; [exact Hgo|].
  exact (@world_after_event_when_over evalMath overComponent (KeyDown "Enter")
           Hgo).
Defined.

Lemma mounted_frame_is_keyboard_only_witness :
  let c := @play evalMath sampleEvents (mount defaultProps) in
  gameOver (gameState (world c)) = false /\
  player (gameState (world (@frame evalMath (t0 + 32) (fun _ => 0.9) c))) =
  keyboardMove (gameSpeed (props (world c))) (keysRef c)
               (player (gameState (world c))).
Proof.
  intro c.
  assert (gameOver (gameState (world c)) = false) as Hgo by qcmp.
  split; [exact Hgo|].
  exact (@mounted_frame_is_keyboard_only evalMath defaultProps sampleEvents
           (t0 + 32) (fun _ => 0.9) Hgo).
Defined.

Lemma sampleEvents_valid : Forall validEvent sampleEvents.
Proof.
  unfold sampleEvents.
  repeat (apply Forall_cons;
          [first [exact I | intro n; split; [discriminate|reflexivity]]|]).
  apply Forall_nil.
Qed.

Lemma mounted_worlds_are_reachable_witness :
  Forall validEvent sampleEvents /\
  @reachable evalMath
    (world (@play evalMath sampleEvents (mount defaultProps))).
Proof.
  split; [exact sampleEvents_valid|].
  exact (@mounted_worlds_are_reachable evalMath defaultProps sampleEvents
           sampleEvents_valid).
Defined.

Lemma reachable_bullets_drawn_full_size_witness :
  @reachable evalMath crashed /\
  Forall (fun b => exists X Y W H,
            drawBullet "#FFFF00" b = [FillStyle "#FFFF00"; FillRect X Y W H] /\
            W == 4 /\ H == 12 /\
            X <= x b /\ x b < X + 4 /\ Y <= y b /\ y b < Y + 4)
         (bullets (gameState crashed)).
Proof.
  split; [exact crashed_reachable|].
  exact (proj1 (@reachable_bullets_drawn_full_size evalMath crashed "#FFFF00"
                  crashed_reachable)).
Defined.

(** The sample session: the key pressed first is released by the touch-move,
    which holds ArrowLeft instead, and nothing is held at the end. *)
Example sample_session :
  keysRef (@play evalMath (firstn 3 sampleEvents) (mount defaultProps)) =
    ["ArrowLeft"%string] /\
  keysRef (@play evalMath sampleEvents (mount defaultProps)) = [].
Proof. vm_compute. split; reflexivity. Qed.
